(** * Threads, the GIL and a lock-protected log: [ss.py]

    A shallow embedding of the demonstration script [ss.py] and the
    properties of it that the specification states.

    - Python integers are unbounded: they are [Z] (loop counters that only
      count are [nat]).
    - Python floats are IEEE 754 binary64 values: [spec_float] with
      precision 53 and maximal exponent 1024.
    - Python strings are given by their UTF-8 bytes.
    - Code that can raise runs in a small exception monad over a trace of
      the blocking calls it performs.
    - The thread pool and the lock-protected workers are step relations
      over the interleavings of their threads. *)

From Stdlib Require Import ZArith Lia SpecFloat Ascii.
From stdpp Require Import base tactics option list numbers strings pretty
  relations sorting.

Local Open Scope Z_scope.
#[local] Set Warnings "-clear-no-such-hyp".

(** ** 1. The CPU-bound tasks *)

Module Cpu.

(** [range(n)]: the integers [0, 1, ..., n-1]; empty when [n <= 0]. *)
Definition range (n : Z) : list Z := seqZ 0 n.

(** [def cpu_intensive_task(n)]:
      [result = 0; for i in range(n): result += i * i; return result] *)
Definition cpu_intensive_task (n : Z) : Z :=
  foldl (λ result i, result + i * i) 0 (range n).

(** [def cpu_task_for_process(n)]: the same loop, written a second time in
    the source for the process-based variant. *)
Definition cpu_task_for_process (n : Z) : Z :=
  foldl (λ result i, result + i * i) 0 (range n).

(** The mathematical sum of [i * i] for [0 <= i < k]. *)
Fixpoint sum_squares_below (k : nat) : Z :=
  match k with
  | O => 0
  | S k' => sum_squares_below k' + Z.of_nat k' * Z.of_nat k'
  end.

End Cpu.

(** ** 2. The speedup ratio *)

Module Speedup.

Definition prec : Z := 53.
Definition emax : Z := 1024.

(** A Python [float]. *)
Definition float : Type := spec_float.

Inductive exn : Type :=
  | ZeroDivisionError.

(** Python's [a / b] on floats: CPython's [float_div] raises
    [ZeroDivisionError] when [b == 0.0] (either sign of zero) and otherwise
    performs the IEEE division. *)
Definition float_truediv (a b : float) : exn + float :=
  if SFeqb b (S754_zero false) then inl ZeroDivisionError
  else inr (SFdiv prec emax a b).

(** [single_thread_time/multi_thread_time] (line 37) and
    [single_thread_io_time/multi_thread_io_time] (line 70): the ratio of
    the two elapsed times, with nothing around the division. *)
Definition speedup (a_elapsed b_elapsed : float) : exn + float :=
  float_truediv a_elapsed b_elapsed.

(** 1.5, 3.0 and 2.0 as binary64 values. *)
Definition f_1_5 : float := S754_finite false 6755399441055744 (-52).
Definition f_3_0 : float := S754_finite false 6755399441055744 (-51).
Definition f_2_0 : float := S754_finite false 4503599627370496 (-51).

End Speedup.

(** ** 3. The I/O-bound task *)

Module Io.

(** What the script does to the outside world, in order. *)
Inductive event : Type :=
  | EvGet (url : string) (timeout : Z)   (* requests.get(url, timeout=...) *)
  | EvSleep (seconds : Z).               (* time.sleep(seconds) *)

Definition trace : Type := list event.

(** Anything a call can raise; a bare [except:] catches every one. *)
Inductive exn : Type :=
  | ConnectionError
  | Timeout
  | OtherError (what : string).

Inductive outcome (A : Type) : Type :=
  | Ret (a : A)
  | Raise (e : exn).
Arguments Ret {A} a.
Arguments Raise {A} e.

(** Computations that extend the trace and return or raise. *)
Definition M (A : Type) : Type := trace → outcome A * trace.

Global Instance M_ret : MRet M := λ A (a : A) t, (Ret a, t).

Global Instance M_bind : MBind M := λ A B (k : A → M B) (m : M A) t,
  match m t with
  | (Ret a, t') => k a t'
  | (Raise e, t') => (Raise e, t')
  end.

(** [try: body  except: handler] with a bare [except:]. *)
Definition try_except {A} (body handler : M A) : M A := λ t,
  match body t with
  | (Ret a, t') => (Ret a, t')
  | (Raise _, t') => handler t'
  end.

Definition time_sleep (seconds : Z) : M unit := λ t, (Ret (), t ++ [EvSleep seconds]).

Record response : Type := { status_code : Z }.

(** The network decides what [requests.get] does: which response comes
    back, or which exception is raised. *)
Definition network : Type := string → Z → outcome response.

Definition requests_get (net : network) (url : string) (timeout : Z) : M response :=
  λ t, (net url timeout, t ++ [EvGet url timeout]).

(** [def io_intensive_task()]. *)
Definition io_intensive_task (net : network) : M Z :=
  try_except
    (response ← requests_get net "https://httpbin.org/delay/1" 3;
     mret (status_code response))
    (time_sleep 1;;
     mret 200).

End Io.

(** ** 4. Interleavings

    A concurrent part of the script is a transition system: [succs st]
    lists every state that one atomic action of one thread can lead to.
    A scheduler is the sequence of choices among them. *)

Module Sched.
Section sched.
Context {S : Type} (succs : S → list S).

Definition step : relation S := λ st st', st' ∈ succs st.

Definition reachable (init st : S) : Prop := rtc step init st.

(** Follows the scheduler until no thread can move, or the fuel is out;
    [n] counts the choices already made. *)
Fixpoint run (sched : nat → nat) (fuel n : nat) (st : S) : S :=
  match fuel with
  | O => st
  | Datatypes.S fuel' =>
      match succs st with
      | [] => st
      | st0 :: sts =>
          run sched fuel' (Datatypes.S n)
            (nth (sched n `mod` length (st0 :: sts))%nat (st0 :: sts) st0)
      end
  end.
End sched.
End Sched.

(** ** 5. Sequential loop and thread pool *)

Module Comparator.

(** [ThreadPoolExecutor(max_workers=0)] raises [ValueError]. *)
Inductive exn : Type :=
  | ValueError.

Section comparator.
Context {A B : Type}.
Variable task : A → B.

(** Lines 57-59: [results = []; for a in args: results.append(task(a))].
    In the script the loop runs three times and the task takes no
    argument. *)
Definition run_sequential (args_list : list A) : list B :=
  foldl (λ results a, results ++ [task a]) [] args_list.

(** The state of lines 65-67. The main thread first submits every
    argument, which creates a future and queues a work item, and then
    asks each future for its result, in the order of the [futures] list.
    Up to [worker_count] worker threads take items from the queue, run
    them and store the result in the item's future. In the script there
    are three submissions and [max_workers=3]. *)
Record state : Type := State {
  to_submit : list A;          (* arguments not submitted yet *)
  futures : list (option B);   (* the futures; [None]: not done yet *)
  queue : list (nat * A);      (* queued items: future index, argument *)
  running : list (nat * A);    (* items the worker threads are running *)
  results : list B             (* results collected so far *)
}.

Variable worker_count : nat.

(** [executor.submit(task, a)] *)
Definition submit (st : state) : option state :=
  match to_submit st with
  | [] => None
  | a :: rest =>
      Some (State rest (futures st ++ [None])
              (queue st ++ [(length (futures st), a)])
              (running st) (results st))
  end.

(** A worker thread that is free takes the oldest queued item. *)
Definition start (st : state) : option state :=
  match queue st with
  | [] => None
  | item :: rest =>
      if decide (length (running st) < worker_count)%nat
      then Some (State (to_submit st) (futures st) rest
                   (running st ++ [item]) (results st))
      else None
  end.

(** The [j]-th running item completes: its future gets the result. *)
Definition finish (j : nat) (st : state) : option state :=
  match running st !! j with
  | None => None
  | Some (i, a) =>
      Some (State (to_submit st) (<[i := Some (task a)]> (futures st))
              (queue st) (delete j (running st)) (results st))
  end.

(** [future.result()] for the next future of the list; it blocks until
    that future is done. *)
Definition collect (st : state) : option state :=
  match to_submit st with
  | _ :: _ => None
  | [] =>
      match futures st !! length (results st) with
      | Some (Some b) =>
          Some (State [] (futures st) (queue st) (running st)
                  (results st ++ [b]))
      | _ => None
      end
  end.

Definition succs (st : state) : list state :=
  omap id ([submit st; start st; collect st]
           ++ ((λ j, finish j st) <$> seq 0 (length (running st)))).

Definition init (args_list : list A) : state := State args_list [] [] [] [].

(** Every future has been asked for its result. *)
Definition final (st : state) : Prop :=
  to_submit st = [] ∧ length (results st) = length (futures st).

(** Lines 65-67 under the scheduler [sched]; each item takes four
    actions (submit, start, finish, collect). *)
Definition run_concurrent (args_list : list A) (sched : nat → nat)
    : exn + list B :=
  if decide (worker_count = 0)%nat then inl ValueError
  else inr (results (Sched.run succs sched (4 * length args_list) 0
                       (init args_list))).

(** The number of actions still to come. *)
Definition remaining (st : state) : nat :=
  (4 * length (to_submit st) + 2 * length (queue st) + length (running st)
   + (length (futures st) - length (results st)))%nat.

(** The items that are queued or running. *)
Definition items (st : state) : list (nat * A) := queue st ++ running st.

(** What holds in every state the pool can reach on [args]. *)
Record pool_inv (args : list A) (st : state) : Prop := PoolInv {
  inv_to_submit : to_submit st = drop (length (futures st)) args;
  inv_futures_le : (length (futures st) ≤ length args)%nat;
  inv_nodup : NoDup (items st).*1;
  inv_items : ∀ i a, (i, a) ∈ items st →
    args !! i = Some a ∧ futures st !! i = Some None;
  inv_futures : ∀ i o, futures st !! i = Some o →
    ∃ a, args !! i = Some a ∧
         match o with Some b => b = task a | None => (i, a) ∈ items st end;
  inv_results : results st = task <$> take (length (results st)) args;
  inv_results_le : (length (results st) ≤ length (futures st))%nat
}.
End comparator.

Definition square (x : Z) : Z := x * x.

End Comparator.

(** ** 6. The workers and the shared list *)

Module SharedLog.

(** [f"线程{thread_id}-任务{i}"]: the two labels are the words for thread
    and for task; the integers are printed in decimal. *)
Definition entry (thread_id i : nat) : string :=
  "线程" +:+ pretty thread_id +:+ "-任务" +:+ pretty i.

(** No byte of [s] is the separator ["-"]. *)
Fixpoint no_dash (s : string) : bool :=
  match s with
  | EmptyString => true
  | String c s' => bool_decide (c ≠ "-"%char) && no_dash s'
  end.

(** Where a thread running [worker] stands in iteration [i] of its loop. *)
Inductive pc : Type :=
  | AtAcquire (i : nat)   (* at [with lock:], the lock not taken yet *)
  | AtAppend (i : nat)    (* holds the lock, at [shared_list.append(...)] *)
  | AtRelease (i : nat)   (* at the end of the [with] block, holds the lock *)
  | AtSleep (i : nat)     (* in [time.sleep(0.1)], the lock given back *)
  | Finished.

Global Instance pc_eq_dec : EqDecision pc.
Proof. solve_decision. Defined.

(** Between taking the lock and giving it back. *)
Definition in_critical_section (p : pc) : bool :=
  match p with
  | AtAppend _ | AtRelease _ => true
  | _ => false
  end.

Section workers.
(** The script has [range(3)] threads and [range(5)] iterations. *)
Variables worker_count steps_per_worker : nat.

(** [for i in range(steps_per_worker)]: the start of iteration [i], or
    the end of the loop. *)
Definition iteration (i : nat) : pc :=
  if decide (i < steps_per_worker)%nat then AtAcquire i else Finished.

Record state : Type := State {
  threads : list pc;           (* the started threads; the index is [thread_id] *)
  joined : nat;                (* how many threads the main thread has joined *)
  shared_data : list string;   (* the shared list *)
  lock : bool                  (* [true]: the lock is taken *)
}.

(** Lines 90-93: the main thread starts the next worker. *)
Definition spawn (st : state) : option state :=
  if decide (length (threads st) < worker_count)%nat
  then Some (State (threads st ++ [iteration 0]) (joined st)
               (shared_data st) (lock st))
  else None.

(** Lines 96-97: [t.join()] returns once thread [t] has finished. *)
Definition join (st : state) : option state :=
  if decide (length (threads st) = worker_count)
  then match threads st !! joined st with
       | Some Finished =>
           Some (State (threads st) (Datatypes.S (joined st))
                   (shared_data st) (lock st))
       | _ => None
       end
  else None.

(** Lines 77-82: one action of the thread [thread_id]. *)
Definition worker (thread_id : nat) (st : state) : option state :=
  match threads st !! thread_id with
  | Some (AtAcquire i) =>
      if lock st then None
      else Some (State (<[thread_id := AtAppend i]> (threads st)) (joined st)
                   (shared_data st) true)
  | Some (AtAppend i) =>
      Some (State (<[thread_id := AtRelease i]> (threads st)) (joined st)
              (shared_data st ++ [entry thread_id i]) (lock st))
  | Some (AtRelease i) =>
      Some (State (<[thread_id := AtSleep i]> (threads st)) (joined st)
              (shared_data st) false)
  | Some (AtSleep i) =>
      Some (State (<[thread_id := iteration (Datatypes.S i)]> (threads st))
              (joined st) (shared_data st) (lock st))
  | Some Finished | None => None
  end.

Definition succs (st : state) : list state :=
  omap id ([spawn st; join st]
           ++ ((λ thread_id, worker thread_id st)
                 <$> seq 0 (length (threads st)))).

(** Lines 84-88: [shared_data = []], a fresh lock, no thread yet. *)
Definition init : state := State [] 0 [] false.

(** Every worker has been started and joined. *)
Definition completed (st : state) : Prop :=
  length (threads st) = worker_count ∧ joined st = worker_count.

(** The actions a thread still has to perform. *)
Definition pc_remaining (p : pc) : nat :=
  match p with
  | AtAcquire i => 4 * (steps_per_worker - Datatypes.S i) + 4
  | AtAppend i => 4 * (steps_per_worker - Datatypes.S i) + 3
  | AtRelease i => 4 * (steps_per_worker - Datatypes.S i) + 2
  | AtSleep i => 4 * (steps_per_worker - Datatypes.S i) + 1
  | Finished => 0
  end%nat.

Definition remaining (st : state) : nat :=
  ((worker_count - length (threads st)) * (4 * steps_per_worker + 1)
   + sum_list_with pc_remaining (threads st)
   + (worker_count - joined st))%nat.

(** Lines 84-97 under the scheduler [sched]: every worker takes four
    actions per iteration and is started and joined once. The result is
    the shared list after the last join. *)
Definition run_workers (sched : nat → nat) : list string :=
  shared_data
    (Sched.run succs sched (worker_count * (4 * steps_per_worker + 2)) 0 init).

(** The entries a thread has appended when it stands at [p]. *)
Definition appended (p : pc) : nat :=
  match p with
  | AtAcquire i | AtAppend i => i
  | AtRelease i | AtSleep i => Datatypes.S i
  | Finished => steps_per_worker
  end.

Definition pc_wf (p : pc) : Prop :=
  match p with
  | AtAcquire i | AtAppend i | AtRelease i | AtSleep i =>
      (i < steps_per_worker)%nat
  | Finished => True
  end.

(** Threads are started at most [worker_count] times, the joined ones have
    finished, and a running thread is inside its loop. *)
Record threads_inv (st : state) : Prop := ThreadsInv {
  tinv_started : (length (threads st) ≤ worker_count)%nat;
  tinv_joined : ∀ j, (j < joined st)%nat → threads st !! j = Some Finished;
  tinv_wf : ∀ thread_id p, threads st !! thread_id = Some p → pc_wf p
}.

(** The entries the thread [thread_id] has appended so far. *)
Definition done_steps (st : state) (thread_id : nat) : nat :=
  from_option appended 0%nat (threads st !! thread_id).
End workers.

(** The thread [thread_id] is between taking the lock and giving it back. *)
Definition holds_lock (st : state) (thread_id : nat) : Prop :=
  ∃ p, threads st !! thread_id = Some p ∧ in_critical_section p = true.

(** The entry of a (thread, iteration) pair. *)
Definition tag_entry (t : nat * nat) : string := entry t.1 t.2.

(** The lock is taken exactly when one thread, the holder, is in its
    critical section, and no other thread is. *)
Definition lock_inv (st : state) : Prop :=
  ∃ holder : option nat,
    lock st = bool_decide (is_Some holder)
    ∧ ∀ tid, holds_lock st tid ↔ holder = Some tid.

(** The shared list is the list of entries of some sequence of
    (thread, iteration) pairs in which the pairs of every thread are
    its iterations so far, in order. *)
Definition log_inv (steps_per_worker : nat) (st : state) : Prop :=
  ∃ tags : list (nat * nat),
    shared_data st = tag_entry <$> tags
    ∧ ∀ tid, filter (λ t, t.1 = tid) tags
             = (λ i, (tid, i)) <$> seq 0 (done_steps steps_per_worker st tid).

(** Every (thread, iteration) pair of [worker_count] threads running
    [steps_per_worker] iterations, once each, and their entries. *)
Definition all_tags (worker_count steps_per_worker : nat) : list (nat * nat) :=
  seq 0 worker_count ≫= λ thread_id, (λ i, (thread_id, i)) <$> seq 0 steps_per_worker.

Definition all_entries (worker_count steps_per_worker : nat) : list string :=
  tag_entry <$> all_tags worker_count steps_per_worker.

(** The entry format as the specification words it. *)
Definition spec_entry (id i : nat) : string :=
  "worker" +:+ pretty id +:+ "-step" +:+ pretty i.

(** The entries of the thread [thread_id] among [log], in their order;
    [steps] bounds the iteration numbers looked for. *)
Definition entries_of (steps thread_id : nat) (log : list string) : list string :=
  filter (λ e, e ∈ entry thread_id <$> seq 0 steps) log.

End SharedLog.

(** ** 7. The blocks of the script *)

Module Script.

(** Lines 23-24: the two calls, one after the other. *)
Definition cpu_single_thread : Z * Z :=
  let result1 := Cpu.cpu_intensive_task 5000000 in
  let result2 := Cpu.cpu_intensive_task 5000000 in
  (result1, result2).

(** Lines 30-34: the two calls submitted to a pool of two threads;
    [result1] and [result2] are read from the futures in that order. *)
Definition cpu_multi_thread (sched : nat → nat) : Comparator.exn + list Z :=
  Comparator.run_concurrent Cpu.cpu_intensive_task 2 [5000000; 5000000] sched.

(** The address every request goes to. *)
Definition url : string := "https://httpbin.org/delay/1".

(** Lines 57-59: [results = []; for i in range(count):
    results.append(io_intensive_task())]; [net_at i] is what the network
    does at the call of iteration [i]. The script has [count = 3]. *)
Fixpoint io_loop (net_at : nat → Io.network) (iterations : list nat)
    (results : list Z) : Io.M (list Z) :=
  match iterations with
  | [] => mret results
  | i :: iterations' =>
      code ← Io.io_intensive_task (net_at i);
      io_loop net_at iterations' (results ++ [code])
  end.

Definition io_single_thread (count : nat) (net_at : nat → Io.network)
    : Io.M (list Z) :=
  io_loop net_at (seq 0 count) [].

(** Lines 65-67: the same [count] calls submitted to a pool; the future of
    submission [i] holds what the call returns or raises, whatever the
    other threads have done before. The script has [count = 3] and
    [worker_count = 3]. *)
Definition io_multi_thread (count worker_count : nat)
    (net_at : nat → Io.network) (sched : nat → nat)
    : Comparator.exn + list (Io.outcome Z) :=
  Comparator.run_concurrent (λ i, (Io.io_intensive_task (net_at i) []).1)
    worker_count (seq 0 count) sched.

(** What the [i]-th call gives: the status of the response, or 200 when
    the request raised. *)
Definition status_at (net_at : nat → Io.network) (i : nat) : Z :=
  match net_at i url 3 with
  | Io.Ret response => Io.status_code response
  | Io.Raise _ => 200
  end.

(** The seconds of [time.sleep] in a trace, and its requests. *)
Definition slept (t : Io.trace) : Z :=
  foldr (λ ev total, match ev with Io.EvSleep seconds => seconds + total
                                 | Io.EvGet _ _ => total end) 0 t.

Definition requests (t : Io.trace) : list (string * Z) :=
  omap (λ ev, match ev with Io.EvGet u timeout => Some (u, timeout)
                          | Io.EvSleep _ => None end) t.

Definition raises {A} (o : Io.outcome A) : bool :=
  match o with Io.Raise _ => true | Io.Ret _ => false end.

(** The calls among the first [count] at which the request raises. *)
Definition failures (count : nat) (net_at : nat → Io.network) : list nat :=
  filter (λ i, raises (net_at i url 3)) (seq 0 count).

(** Lines 101-104: the lines printed about the shared list. *)
Definition report (shared_data : list string) : list string :=
  ("共处理了 " +:+ pretty (length shared_data) +:+ " 个任务")
  :: "任务执行顺序（注意线程交替）:"
  :: (String.append "  " <$> shared_data).

(** The future of every result that has been collected is done. *)
Definition collected_done {A B : Type} (st : @Comparator.state A B) : Prop :=
  ∀ i, (i < length (Comparator.results st))%nat →
       ∃ b, Comparator.futures st !! i = Some (Some b).

End Script.

(** * Properties *)

Section cpu_facts.
Import Cpu.

Lemma range_succ (k : nat) :
  range (Z.of_nat (S k)) = range (Z.of_nat k) ++ [Z.of_nat k].
Proof.
  unfold range. by rewrite seqZ_S.
Qed.

Lemma loop_is_sum (k : nat) :
  foldl (λ result i, result + i * i) 0 (range (Z.of_nat k)) = sum_squares_below k.
Proof.
  induction k as [|k IH]; [done|].
  rewrite range_succ, foldl_app. simpl. by rewrite IH.
Qed.

Lemma six_sum_squares (k : nat) :
  6 * sum_squares_below k
  = (Z.of_nat k - 1) * Z.of_nat k * (2 * Z.of_nat k - 1).
Proof.
  induction k as [|k IH]; [done|].
  cbn [sum_squares_below]. rewrite Nat2Z.inj_succ. nia.
Qed.
End cpu_facts.

(** C9: for every integer [n >= 0], [cpu_intensive_task n] (a total
    function, so the call returns) is the sum of [i*i] for [i] from [0] to
    [n-1], which is [(n-1)*n*(2*n-1)/6]; for [n = 0] that is [0]. *)
Theorem cpu_intensive_task_sum_of_squares (n : Z) :
  0 ≤ n →
  Cpu.cpu_intensive_task n = Cpu.sum_squares_below (Z.to_nat n)
  ∧ Cpu.cpu_intensive_task n = ((n - 1) * n * (2 * n - 1)) `div` 6
  ∧ Cpu.cpu_intensive_task 0 = 0.
Proof.
  intros Hn.
  assert (Cpu.cpu_intensive_task n = Cpu.sum_squares_below (Z.to_nat n)) as Hsum.
  { unfold Cpu.cpu_intensive_task.
    rewrite <-(Z2Nat.id n) at 1 by lia. apply loop_is_sum. }
  split_and!; [done| |done].
  pose proof (six_sum_squares (Z.to_nat n)) as H6.
  rewrite Z2Nat.id in H6 by lia.
  rewrite Hsum, <-H6, Z.mul_comm, Z.div_mul; done.
Qed.

Lemma cpu_intensive_task_sum_of_squares_witness :
  0 ≤ 4 ∧ Cpu.cpu_intensive_task 4 = 14.
Proof.
  split; [lia|].
  destruct (cpu_intensive_task_sum_of_squares 4 ltac:(lia)) as (_ & -> & _).
  reflexivity.
Defined.

(** C10: for every integer [n], [cpu_task_for_process n] returns exactly
    the value of [cpu_intensive_task n]. *)
Theorem cpu_task_for_process_eq_cpu_intensive_task (n : Z) :
  Cpu.cpu_task_for_process n = Cpu.cpu_intensive_task n.
Proof. reflexivity. Qed.

(** ** Schedulers and measures *)

Section sched_facts.
Context {S : Type} (succs : S → list S).
Implicit Types (st : S) (sched : nat → nat).

Lemma pick_step sched n st st0 sts :
  succs st = st0 :: sts →
  Sched.step succs st
    (nth (sched n `mod` length (st0 :: sts))%nat (st0 :: sts) st0).
Proof.
  intros Hs. unfold Sched.step. rewrite Hs.
  apply list_elem_of_In, nth_In, Nat.mod_upper_bound. done.
Qed.

Lemma run_reachable sched fuel n st :
  Sched.reachable succs st (Sched.run succs sched fuel n st).
Proof.
  unfold Sched.reachable.
  revert n st. induction fuel as [|fuel IH]; intros n st;
    cbn [Sched.run]; [apply rtc_refl|].
  destruct (succs st) as [|st0 sts] eqn:Hs; [apply rtc_refl|].
  eapply rtc_l; [|apply IH]. by apply pick_step.
Qed.

(** A measure that every action decreases bounds the length of every
    execution, and a run with that much fuel ends where nothing can
    move. *)
Context (μ : S → nat).
Hypothesis μ_decreases : ∀ st st', Sched.step succs st st' → (μ st' < μ st)%nat.

Lemma run_stuck sched fuel n st :
  (μ st ≤ fuel)%nat → succs (Sched.run succs sched fuel n st) = [].
Proof.
  revert n st. induction fuel as [|fuel IH]; intros n st Hμ;
    cbn [Sched.run]; destruct (succs st) as [|st0 sts] eqn:Hs; try done.
  - pose proof (μ_decreases _ _ (pick_step sched n _ _ _ Hs)). lia.
  - apply IH.
    pose proof (μ_decreases _ _ (pick_step sched n _ _ _ Hs)). lia.
Qed.
End sched_facts.

(** ** The sequential loop and the thread pool *)

Section comparator_facts.
Import Comparator.
Context {A B : Type} (task : A → B) (worker_count : nat).
Implicit Types (st : @state A B) (args : list A).

Local Abbreviation succs := (succs task worker_count).
Local Abbreviation step := (Sched.step succs).

Lemma run_sequential_loop (acc : list B) args :
  foldl (λ results a, results ++ [task a]) acc args = acc ++ (task <$> args).
Proof.
  revert acc. induction args as [|a args IH]; intros acc; simpl.
  - by rewrite app_nil_r.
  - by rewrite IH, <-app_assoc.
Qed.

Lemma run_sequential_fmap args : run_sequential task args = task <$> args.
Proof. apply run_sequential_loop. Qed.

Lemma pool_step_cases st st' :
  step st st' ↔
    submit st = Some st' ∨ start worker_count st = Some st'
    ∨ collect st = Some st' ∨ ∃ j, finish task j st = Some st'.
Proof.
  unfold Sched.step, Comparator.succs.
  rewrite list_elem_of_omap. split.
  - intros (o & Ho & Heq). simpl in Heq. subst o.
    rewrite elem_of_app, !elem_of_cons, elem_of_nil, list_elem_of_fmap in Ho.
    destruct Ho as [[->| [->| [->| []]]]| (j & -> & _)]; eauto.
  - intros Hcases.
    assert (∀ j, finish task j st = Some st' → (j < length (running st))%nat) as Hj.
    { intros j. unfold finish.
      destruct (running st !! j) eqn:Hl; [|done].
      intros _. by eapply lookup_lt_Some. }
    exists (Some st'). split; [|done].
    rewrite elem_of_app, !elem_of_cons, list_elem_of_fmap.
    destruct Hcases as [<-| [<-| [<-| (j & Hf)]]]; eauto.
    right. exists j. split; [done|]. apply elem_of_seq. specialize (Hj _ Hf). lia.
Qed.

(** Every action uses up one of the [4 * k] the pool has to perform. *)
Lemma pool_step_remaining st st' :
  step st st' → (remaining st' < remaining st)%nat.
Proof.
  rewrite pool_step_cases. unfold remaining.
  intros [Hs| [Hs| [Hs| (j & Hs)]]].
  - unfold submit in Hs. destruct (to_submit st) as [|a rest]; simplify_eq/=.
    rewrite !length_app. simpl. lia.
  - unfold start in Hs. destruct (queue st) as [|item rest]; [done|].
    case_decide; simplify_eq/=. rewrite !length_app. simpl. lia.
  - unfold collect in Hs. destruct (to_submit st); [|done].
    destruct (futures st !! length (results st)) as [[b|]|] eqn:Hl; simplify_eq/=.
    apply lookup_lt_Some in Hl. rewrite !length_app. simpl. lia.
  - unfold finish in Hs. destruct (running st !! j) as [[i a]|] eqn:Hl; simplify_eq/=.
    rewrite length_insert, length_delete by eauto.
    apply lookup_lt_Some in Hl. lia.
Qed.

Lemma pool_inv_init args : pool_inv task args (init args).
Proof.
  split; simpl; try done.
  - lia.
  - constructor.
  - intros i a Hin. by apply elem_of_nil in Hin.
Qed.

Lemma pool_inv_submit args st st' :
  pool_inv task args st → submit st = Some st' → pool_inv task args st'.
Proof.
  intros [Hsub Hle Hnd Hit Hfut Hres Hrle]. unfold submit.
  destruct (to_submit st) as [|a rest] eqn:Hts; [done|]. intros [= <-].
  assert (args !! length (futures st) = Some a) as Ha.
  { rewrite <-(Nat.add_0_r (length _)), <-lookup_drop, <-Hsub. done. }
  assert (items (State rest (futures st ++ [None])
                   (queue st ++ [(length (futures st), a)])
                   (running st) (results st))
          ≡ₚ (length (futures st), a) :: items st) as Hperm.
  { unfold items. simpl. rewrite <-app_assoc. simpl.
    by rewrite <-Permutation_middle. }
  split; simpl.
  - rewrite length_app. simpl. rewrite Nat.add_1_r.
    erewrite drop_S in Hsub by done. by simplify_eq.
  - rewrite length_app. simpl. apply lookup_lt_Some in Ha. lia.
  - rewrite Hperm. simpl. constructor; [|done].
    intros ((i & a') & Heq & Hin)%list_elem_of_fmap. simpl in Heq. subst i.
    apply Hit in Hin as [_ Hlt%lookup_lt_Some]. lia.
  - intros i a'. rewrite Hperm, elem_of_cons. intros [[= -> ->]|Hin].
    + split; [done|]. by rewrite lookup_app_r, Nat.sub_diag by lia.
    + apply Hit in Hin as [? Hl]. split; [done|].
      by rewrite lookup_app_l by (by eapply lookup_lt_Some).
  - intros i o Hl. apply lookup_app_Some in Hl as [Hl|[Hge Hl]].
    + destruct (Hfut _ _ Hl) as (a' & ? & Ho). exists a'. split; [done|].
      destruct o; [done|]. rewrite Hperm. by right.
    + apply list_lookup_singleton_Some in Hl as [Hi <-].
      assert (i = length (futures st)) as -> by lia.
      exists a. split; [done|]. rewrite Hperm. by left.
  - done.
  - rewrite length_app. lia.
Qed.

Lemma pool_inv_start args st st' :
  pool_inv task args st → start worker_count st = Some st' → pool_inv task args st'.
Proof.
  intros [Hsub Hle Hnd Hit Hfut Hres Hrle]. unfold start.
  destruct (queue st) as [|item rest] eqn:Hq; [done|].
  case_decide; [|done]. intros [= <-].
  assert (items (State (to_submit st) (futures st) rest
                   (running st ++ [item]) (results st))
          ≡ₚ items st) as Hperm.
  { unfold items. simpl. rewrite Hq. simpl.
    by rewrite app_assoc, <-Permutation_cons_append. }
  split; simpl; try done.
  - by rewrite Hperm.
  - intros i a. rewrite Hperm. apply Hit.
  - intros i o Hl. destruct (Hfut _ _ Hl) as (a & ? & Ho). exists a.
    split; [done|]. destruct o; [done|]. by rewrite Hperm.
Qed.

Lemma pool_inv_finish args j st st' :
  pool_inv task args st → finish task j st = Some st' → pool_inv task args st'.
Proof.
  intros [Hsub Hle Hnd Hit Hfut Hres Hrle]. unfold finish.
  destruct (running st !! j) as [[i a]|] eqn:Hj; [|done]. intros [= <-].
  set (st' := State _ _ _ _ _).
  assert (items st ≡ₚ (i, a) :: items st') as Hperm.
  { unfold items, st'. simpl.
    etrans; [apply Permutation_app_head, (delete_Permutation _ _ _ Hj)|].
    by rewrite <-Permutation_middle. }
  rewrite Hperm in Hnd. simpl in Hnd. apply NoDup_cons in Hnd as [Hni Hnd].
  destruct (Hit i a) as [Hai Hfi]; [rewrite Hperm; by left|].
  assert (∀ i' a', (i', a') ∈ items st' → i' ≠ i) as Hne.
  { intros i' a' Hin ->. apply Hni, list_elem_of_fmap. by exists (i, a'). }
  split; subst st'; simpl; try done.
  - by rewrite length_insert.
  - by rewrite length_insert.
  - intros i' a' Hin. destruct (Hit i' a') as [? ?]; [rewrite Hperm; by right|].
    split; [done|]. rewrite list_lookup_insert_ne; [done|].
    intros ->. by eapply Hne.
  - intros i' o Hl. destruct (decide (i = i')) as [<-|Hii].
    + rewrite list_lookup_insert_eq in Hl by (by eapply lookup_lt_Some).
      simplify_eq. by exists a.
    + rewrite list_lookup_insert_ne in Hl by done.
      destruct (Hfut _ _ Hl) as (a' & ? & Ho). exists a'. split; [done|].
      destruct o; [done|]. rewrite Hperm in Ho.
      apply elem_of_cons in Ho as [[= ? ?]|?]; done.
  - by rewrite length_insert.
Qed.

Lemma pool_inv_collect args st st' :
  pool_inv task args st → collect st = Some st' → pool_inv task args st'.
Proof.
  intros [Hsub Hle Hnd Hit Hfut Hres Hrle]. unfold collect.
  destruct (to_submit st) eqn:Hts; [|done].
  destruct (futures st !! length (results st)) as [[b|]|] eqn:Hl; [|done..].
  intros [= <-].
  destruct (Hfut _ _ Hl) as (a & Ha & ->).
  split; simpl; try done.
  - rewrite length_app. simpl. rewrite Nat.add_1_r.
    erewrite take_S_r by done. by rewrite fmap_app, <-Hres.
  - rewrite length_app. simpl. apply lookup_lt_Some in Hl. lia.
Qed.

Lemma pool_inv_step args st st' : pool_inv task args st → step st st' → pool_inv task args st'.
Proof.
  rewrite pool_step_cases. intros Hinv [?| [?| [?| (j & ?)]]];
    eauto using pool_inv_submit, pool_inv_start, pool_inv_finish, pool_inv_collect.
Qed.

Lemma pool_inv_reachable args st :
  Sched.reachable succs (init args) st → pool_inv task args st.
Proof.
  unfold Sched.reachable. revert st.
  apply rtc_ind_r; eauto using pool_inv_init, pool_inv_step.
Qed.

(** When every future has been collected, the results are the task's
    values on the arguments, in the order of the arguments. *)
Lemma pool_inv_final args st :
  pool_inv task args st → final st → results st = task <$> args.
Proof.
  intros [Hsub Hle _ _ _ Hres _] [Hts Hlen].
  rewrite Hts in Hsub. symmetry in Hsub. apply drop_nil_inv in Hsub.
  rewrite Hres, Hlen, take_ge; [done|lia].
Qed.

(** With at least one worker thread, the pool is never stuck before the
    last result is collected. *)
Lemma pool_inv_progress args st :
  (1 ≤ worker_count)%nat → pool_inv task args st → succs st = [] → final st.
Proof.
  intros Hw [Hsub Hle _ Hit Hfut Hres Hrle] Hstuck.
  assert (∀ st', ¬ step st st') as Hno.
  { intros st'. unfold Sched.step. rewrite Hstuck. apply not_elem_of_nil. }
  setoid_rewrite pool_step_cases in Hno.
  assert (to_submit st = []) as Hts.
  { destruct (to_submit st) as [|a rest] eqn:Hts; [done|].
    exfalso. eapply Hno. left. unfold submit. by rewrite Hts. }
  assert (running st = []) as Hrun.
  { destruct (running st) as [|[i a] rest] eqn:Hrun; [done|].
    exfalso. eapply Hno. do 3 right. exists 0%nat. unfold finish. by rewrite Hrun. }
  assert (queue st = []) as Hq.
  { destruct (queue st) as [|item rest] eqn:Hq; [done|].
    exfalso. eapply Hno. right; left. unfold start. rewrite Hq, Hrun.
    rewrite decide_True; [done|simpl; lia]. }
  split; [done|].
  destruct (decide (length (results st) = length (futures st))) as [|Hne]; [done|].
  exfalso.
  destruct (lookup_lt_is_Some_2 (futures st) (length (results st))) as [o Hl]; [lia|].
  destruct (Hfut _ _ Hl) as (a & _ & Ho). destruct o as [b|].
  - eapply Hno. right; right; left. unfold collect. by rewrite Hts, Hl.
  - unfold items in Ho. rewrite Hq, Hrun in Ho. by apply elem_of_nil in Ho.
Qed.
End comparator_facts.

(** C1: for every pure task and argument list of length [k],
    [run_sequential] and [run_concurrent] with [worker_count >= 1] produce
    result sequences of length [k] with the same value at every index,
    the task's value on the argument at that index, under every scheduler
    and in every final state an interleaving of the pool can reach; for
    [square] and [[1; 2; 3]] both return [[1; 4; 9]]. *)
Theorem run_concurrent_eq_run_sequential {A B : Type} (task : A → B)
    (args_list : list A) (worker_count : nat) (sched : nat → nat) :
  (1 ≤ worker_count)%nat →
  Comparator.run_concurrent task worker_count args_list sched
    = inr (Comparator.run_sequential task args_list)
  ∧ length (Comparator.run_sequential task args_list) = length args_list
  ∧ (∀ i a, args_list !! i = Some a →
       Comparator.run_sequential task args_list !! i = Some (task a))
  ∧ (∀ st,
       Sched.reachable (Comparator.succs task worker_count)
         (Comparator.init args_list) st →
       Comparator.final st →
       Comparator.results st = Comparator.run_sequential task args_list)
  ∧ Comparator.run_sequential Comparator.square [1; 2; 3] = [1; 4; 9]
  ∧ Comparator.run_concurrent Comparator.square 3 [1; 2; 3] sched
    = inr [1; 4; 9].
Proof.
  intros Hw.
  assert (∀ {C D : Type} (f : C → D) (w : nat) (l : list C), (1 ≤ w)%nat →
            Comparator.run_concurrent f w l sched
            = inr (Comparator.run_sequential f l)) as Hrun.
  { intros C D f w l Hw1. unfold Comparator.run_concurrent.
    rewrite decide_False by lia. f_equal.
    rewrite run_sequential_fmap. eapply pool_inv_final.
    - apply (pool_inv_reachable f w), run_reachable.
    - eapply pool_inv_progress; [done|apply (pool_inv_reachable f w), run_reachable|].
      apply (run_stuck (Comparator.succs f w) Comparator.remaining
               (pool_step_remaining f w)).
      unfold Comparator.remaining. simpl. lia. }
  split_and!.
  - by apply Hrun.
  - by rewrite run_sequential_fmap, length_fmap.
  - intros i a Hi. by rewrite run_sequential_fmap, list_lookup_fmap, Hi.
  - intros st Hreach Hfinal. rewrite run_sequential_fmap.
    eapply pool_inv_final; [by apply (pool_inv_reachable task worker_count)|done].
  - reflexivity.
  - rewrite Hrun by lia. reflexivity.
Qed.

Lemma run_concurrent_eq_run_sequential_witness :
  (1 ≤ 3)%nat
  ∧ Comparator.run_concurrent Comparator.square 3 [1; 2; 3] (λ n, n)
    = inr (Comparator.run_sequential Comparator.square [1; 2; 3]).
Proof.
  split; [lia|].
  apply (run_concurrent_eq_run_sequential Comparator.square [1; 2; 3] 3 (λ n, n)).
  lia.
Defined.

(** The pool at work: three workers, tasks finishing in an order picked by
    the scheduler; and with no worker thread the executor is refused. *)
Example run_concurrent_square_interleaved :
  Comparator.run_concurrent Comparator.square 2 [1; 2; 3] (λ n, (3 * n + 1)%nat)
  = inr [1; 4; 9].
Proof. vm_compute. reflexivity. Qed.

Example run_concurrent_no_worker :
  Comparator.run_concurrent Comparator.square 0 [1; 2; 3] (λ n, n)
  = inl Comparator.ValueError.
Proof. reflexivity. Qed.

(** ** The speedup ratio *)

(** C4, as the code has it: [speedup(a, b)] with [b.elapsed = 0] (of
    either sign) raises [ZeroDivisionError], the division is not guarded;
    for every other [b.elapsed] it returns the quotient
    [a.elapsed / b.elapsed]. *)
Theorem speedup_zero_elapsed_raises (a b : Speedup.float) :
  (∀ sign, Speedup.speedup a (S754_zero sign) = inl Speedup.ZeroDivisionError)
  ∧ (SFeqb b (S754_zero false) = false →
     Speedup.speedup a b = inr (SFdiv Speedup.prec Speedup.emax a b)).
Proof.
  split.
  - by intros [].
  - intros Hb. unfold Speedup.speedup, Speedup.float_truediv. by rewrite Hb.
Qed.

Lemma speedup_zero_elapsed_raises_witness :
  SFeqb Speedup.f_2_0 (S754_zero false) = false
  ∧ Speedup.speedup Speedup.f_3_0 Speedup.f_2_0 = inr Speedup.f_1_5.
Proof.
  split; [reflexivity|].
  rewrite (proj2 (speedup_zero_elapsed_raises Speedup.f_3_0 Speedup.f_2_0))
    by reflexivity.
  reflexivity.
Defined.

(** C4 as stated fails: with [b.elapsed = 0.0] the call returns no result,
    it raises. *)
Lemma speedup_zero_elapsed_no_result :
  ¬ ∃ r : Speedup.float,
      Speedup.speedup Speedup.f_3_0 (S754_zero false) = inr r.
Proof. intros [r Hr]. vm_compute in Hr. discriminate Hr. Qed.

(** ** The I/O-bound task *)

(** C5: whatever the network does, [io_intensive_task] returns a status
    code and never raises; when the request raises (a failure or a
    timeout), the task sleeps for the fixed duration of one second and
    returns the fixed status 200; when it succeeds, the task returns the
    status code of the response. *)
Theorem io_intensive_task_never_raises (net : Io.network) (t : Io.trace) :
  let url := "https://httpbin.org/delay/1"%string in
  (∃ code t', Io.io_intensive_task net t = (Io.Ret code, t'))
  ∧ (∀ e, net url 3 = Io.Raise e →
       Io.io_intensive_task net t
       = (Io.Ret 200, t ++ [Io.EvGet url 3; Io.EvSleep 1]))
  ∧ (∀ r, net url 3 = Io.Ret r →
       Io.io_intensive_task net t
       = (Io.Ret (Io.status_code r), t ++ [Io.EvGet url 3])).
Proof.
  intros url.
  assert (∀ e, net url 3 = Io.Raise e →
            Io.io_intensive_task net t
            = (Io.Ret 200, t ++ [Io.EvGet url 3; Io.EvSleep 1])) as Hraise.
  { intros e He. unfold Io.io_intensive_task, Io.try_except, Io.requests_get,
      mbind, Io.M_bind, mret, Io.M_ret, Io.time_sleep.
    fold url. rewrite He. by rewrite <-app_assoc. }
  assert (∀ r, net url 3 = Io.Ret r →
            Io.io_intensive_task net t
            = (Io.Ret (Io.status_code r), t ++ [Io.EvGet url 3])) as Hret.
  { intros r Hr. unfold Io.io_intensive_task, Io.try_except, Io.requests_get,
      mbind, Io.M_bind, mret, Io.M_ret.
    fold url. by rewrite Hr. }
  split_and!; [|done..].
  destruct (net url 3) as [r|e] eqn:Hnet.
  - eexists _, _. by apply Hret.
  - eexists _, _. by eapply Hraise.
Qed.

Lemma io_intensive_task_never_raises_witness :
  Io.io_intensive_task (λ _ _, Io.Raise Io.Timeout) []
  = (Io.Ret 200, [Io.EvGet "https://httpbin.org/delay/1" 3; Io.EvSleep 1]).
Proof.
  apply (proj1 (proj2 (io_intensive_task_never_raises
                         (λ _ _, Io.Raise Io.Timeout) [])) Io.Timeout).
  reflexivity.
Defined.

(** ** The log entries *)

Section entry_facts.
Import SharedLog.

Lemma pretty_N_char_no_dash (x : N) : pretty_N_char x ≠ "-"%char.
Proof. unfold pretty_N_char. by repeat case_match. Qed.

Lemma pretty_N_go_no_dash (x : N) (s : string) :
  no_dash s = true → no_dash (pretty_N_go x s) = true.
Proof.
  revert s. induction (N.lt_wf_0 x) as [x _ IH]; intros s Hs.
  destruct (decide (x = 0)%N) as [->|Hx]; [done|].
  rewrite pretty_N_go_step by lia. apply IH.
  - apply N.div_lt; lia.
  - simpl. rewrite Hs, bool_decide_eq_true_2; [done|].
    apply pretty_N_char_no_dash.
Qed.

Lemma pretty_nat_no_dash (n : nat) : no_dash (pretty n) = true.
Proof.
  unfold pretty, pretty_nat, pretty, pretty_N. case_decide; [done|].
  by apply pretty_N_go_no_dash.
Qed.

(** The first ["-"] of a string is where its dash-free prefix ends. *)
Lemma split_at_dash (s1 s2 r1 r2 : string) :
  no_dash s1 = true → no_dash s2 = true →
  s1 +:+ String "-" r1 = s2 +:+ String "-" r2 → s1 = s2 ∧ r1 = r2.
Proof.
  revert s2. induction s1 as [|c1 s1 IH]; intros [|c2 s2]; simpl.
  - by intros _ _ [= ->].
  - intros _ [Hc _]%andb_prop [= <- _]. by apply bool_decide_eq_true in Hc.
  - intros [Hc _]%andb_prop _ [= -> _]. by apply bool_decide_eq_true in Hc.
  - intros [_ H1]%andb_prop [_ H2]%andb_prop [= -> Heq].
    destruct (IH _ H1 H2 Heq) as [-> ->]. done.
Qed.

Lemma entry_inj (a i b j : nat) : entry a i = entry b j → a = b ∧ i = j.
Proof.
  unfold entry. cbn [String.append]. intros [= Heq].
  apply split_at_dash in Heq as [Ha [= Hi]]; [|apply pretty_nat_no_dash..].
  split; by eapply (inj pretty).
Qed.

(** *** Lists of (thread, iteration) pairs *)

Lemma nodup_by_thread (tags : list (nat * nat)) :
  (∀ tid, NoDup (filter (λ t, t.1 = tid) tags)) → NoDup tags.
Proof.
  induction tags as [|t tags IH]; intros Hnd; [constructor|].
  constructor.
  - intros Hin. specialize (Hnd t.1).
    rewrite filter_cons_True in Hnd by done.
    apply NoDup_cons in Hnd as [Hnin _]. apply Hnin.
    by apply list_elem_of_filter.
  - apply IH. intros tid. specialize (Hnd tid).
    rewrite filter_cons in Hnd. case_decide; [|done].
    by apply NoDup_cons in Hnd as [_ ?].
Qed.

Lemma all_tags_elem_of w s tid i :
  (tid, i) ∈ all_tags w s ↔ (tid < w ∧ i < s)%nat.
Proof.
  unfold all_tags. rewrite list_elem_of_bind. split.
  - intros (tid' & Hin & Htid). apply list_elem_of_fmap in Hin as (i' & [= -> ->] & Hi).
    apply elem_of_seq in Hi, Htid. lia.
  - intros [Htid Hi]. exists tid.
    rewrite list_elem_of_fmap, elem_of_seq. split; [|lia].
    exists i. rewrite elem_of_seq. split; [done|lia].
Qed.

Lemma all_tags_nodup w s : NoDup (all_tags w s).
Proof.
  apply NoDup_bind; [| |apply NoDup_seq].
  - intros tid1 tid2 t _ _ (i1 & -> & _)%list_elem_of_fmap (i2 & [= -> _] & _)%list_elem_of_fmap.
    done.
  - intros tid _. apply NoDup_fmap_2_strong; [|apply NoDup_seq].
    by intros i1 i2 _ _ [= ->].
Qed.

Lemma all_tags_length w s : length (all_tags w s) = (w * s)%nat.
Proof.
  unfold all_tags. induction w as [|w IH]; [done|].
  rewrite seq_S, bind_app, length_app, IH. csimpl.
  rewrite app_nil_r, length_fmap, length_seq. lia.
Qed.

Global Instance tag_entry_inj : Inj (=) (=) tag_entry.
Proof.
  intros [a i] [b j] Heq. unfold tag_entry in Heq. simpl in Heq.
  by apply entry_inj in Heq as [-> ->].
Qed.

Lemma filter_fmap_ext {X Y} (f : X → Y) (P : Y → Prop) (Q : X → Prop)
    `{∀ y, Decision (P y)} `{∀ x, Decision (Q x)} (l : list X) :
  (∀ x, x ∈ l → P (f x) ↔ Q x) →
  filter P (f <$> l) = f <$> filter Q l.
Proof.
  induction l as [|x l IH]; intros Hext; [done|].
  rewrite fmap_cons, !filter_cons.
  assert (P (f x) ↔ Q x) as Hx by (apply Hext; left).
  rewrite IH by (intros y Hy; apply Hext; by right).
  destruct (decide (P (f x))), (decide (Q x)); naive_solver.
Qed.

(** Filtering keeps the order of what it keeps. *)
Lemma filter_lookup_order {X} (P : X → Prop) `{∀ x, Decision (P x)}
    (l : list X) (p q : nat) (x y : X) :
  (p < q)%nat → l !! p = Some x → l !! q = Some y → P x → P y →
  ∃ p' q', (p' < q')%nat
           ∧ filter P l !! p' = Some x ∧ filter P l !! q' = Some y.
Proof.
  revert p q. induction l as [|z l IH]; intros p q Hpq Hp Hq Hx Hy; [done|].
  destruct q as [|q]; [lia|]. simpl in Hq. destruct p as [|p].
  - simpl in Hp. simplify_eq. rewrite filter_cons_True by done.
    assert (y ∈ filter P l) as [k Hk]%list_elem_of_lookup.
    { apply list_elem_of_filter. split; [done|]. by eapply list_elem_of_lookup_2. }
    exists 0%nat, (Datatypes.S k). split_and!; [lia|done..].
  - simpl in Hp.
    destruct (IH p q) as (p' & q' & Hlt & Hp' & Hq'); [lia|done..|].
    rewrite filter_cons. case_decide.
    + exists (Datatypes.S p'), (Datatypes.S q'). split_and!; [lia|done..].
    + exists p', q'. done.
Qed.
End entry_facts.


(** ** The workers and the shared list *)

Section worker_facts.
Import SharedLog.
Context (worker_count steps : nat).
Implicit Types (st : state) (p : pc) (tid : nat).

Local Abbreviation wsuccs := (succs worker_count steps).
Local Abbreviation wstep := (Sched.step wsuccs).
Local Abbreviation wreachable := (Sched.reachable wsuccs init).
Local Abbreviation threads_inv := (threads_inv worker_count steps).
Local Abbreviation done_steps := (done_steps steps).
Local Abbreviation log_inv := (log_inv steps).

Lemma workers_step_cases st st' :
  wstep st st' ↔
    spawn worker_count steps st = Some st' ∨ join worker_count st = Some st'
    ∨ ∃ tid, worker steps tid st = Some st'.
Proof.
  unfold Sched.step, succs. rewrite list_elem_of_omap. split.
  - intros (o & Ho & Heq). simpl in Heq. subst o.
    rewrite elem_of_app, !elem_of_cons, elem_of_nil, list_elem_of_fmap in Ho.
    destruct Ho as [[->| [->| []]]| (tid & -> & _)]; eauto.
  - intros Hcases. exists (Some st'). split; [|done].
    rewrite elem_of_app, !elem_of_cons, list_elem_of_fmap.
    destruct Hcases as [<-| [<-| (tid & Hw)]]; eauto.
    right. exists tid. split; [done|]. apply elem_of_seq.
    unfold worker in Hw.
    destruct (threads st !! tid) eqn:Hl; [|done].
    apply lookup_lt_Some in Hl. lia.
Qed.

(** One action of a thread, read off the four statements of the loop
    body. *)
Lemma worker_cases tid st st' :
  worker steps tid st = Some st' →
  ∃ p p',
    threads st !! tid = Some p
    ∧ threads st' = <[tid := p']> (threads st)
    ∧ joined st' = joined st
    ∧ ((∃ i, p = AtAcquire i ∧ p' = AtAppend i ∧ lock st = false
             ∧ lock st' = true ∧ shared_data st' = shared_data st)
       ∨ (∃ i, p = AtAppend i ∧ p' = AtRelease i ∧ lock st' = lock st
               ∧ shared_data st' = shared_data st ++ [entry tid i])
       ∨ (∃ i, p = AtRelease i ∧ p' = AtSleep i ∧ lock st' = false
               ∧ shared_data st' = shared_data st)
       ∨ (∃ i, p = AtSleep i ∧ p' = iteration steps (Datatypes.S i)
               ∧ lock st' = lock st ∧ shared_data st' = shared_data st)).
Proof.
  unfold worker. destruct (threads st !! tid) as [[i|i|i|i|]|] eqn:Hl; try done.
  - destruct (lock st) eqn:Hlock; [done|]. intros [= <-].
    eexists _, _. split_and!; [done..|]. left. by exists i.
  - intros [= <-].
    eexists _, _. split_and!; [done..|]. right; left. by exists i.
  - intros [= <-].
    eexists _, _. split_and!; [done..|]. do 2 right; left. by exists i.
  - intros [= <-].
    eexists _, _. split_and!; [done..|]. do 3 right. by exists i.
Qed.

Lemma sum_list_with_insert {X} (f : X → nat) (l : list X) (k : nat) (x y : X) :
  l !! k = Some x →
  (sum_list_with f (<[k := y]> l) + f x = sum_list_with f l + f y)%nat.
Proof.
  revert k. induction l as [|z l IH]; intros [|k] Hl; simplify_eq/=; [lia|].
  specialize (IH _ Hl). lia.
Qed.

Lemma pc_remaining_sleep i :
  (pc_remaining steps (iteration steps (Datatypes.S i))
   < pc_remaining steps (AtSleep i))%nat.
Proof. unfold iteration. case_decide; simpl; lia. Qed.

(** Every action uses up one of the actions that remain. *)
Lemma workers_step_remaining st st' :
  wstep st st' →
  (remaining worker_count steps st' < remaining worker_count steps st)%nat.
Proof.
  rewrite workers_step_cases. unfold remaining.
  intros [Hs| [Hs| (tid & Hs)]].
  - unfold spawn in Hs. case_decide; [|done]. simplify_eq/=.
    rewrite length_app, sum_list_with_app. simpl.
    assert (pc_remaining steps (iteration steps 0) ≤ 4 * steps)%nat.
    { unfold iteration. case_decide; simpl; lia. }
    nia.
  - unfold join in Hs. case_decide; [|done].
    destruct (threads st !! joined st) as [[]|] eqn:Hl; simplify_eq/=.
    apply lookup_lt_Some in Hl. lia.
  - apply worker_cases in Hs as (p & p' & Hl & -> & -> & Hmove).
    rewrite length_insert.
    pose proof (sum_list_with_insert (pc_remaining steps) _ _ _ p' Hl) as Hsum.
    assert (pc_remaining steps p' < pc_remaining steps p)%nat; [|lia].
    destruct Hmove as [(i & -> & -> & _)| [(i & -> & -> & _)|
      [(i & -> & -> & _)| (i & -> & -> & _)]]];
      [simpl; lia..|apply pc_remaining_sleep].
Qed.

(** *** Threads are started once, run their loop, and are joined *)

Lemma iteration_wf i : pc_wf steps (iteration steps i).
Proof. unfold iteration. by case_decide. Qed.

Lemma threads_inv_step st st' :
  threads_inv st → wstep st st' → threads_inv st'.
Proof.
  intros [Hlen Hjoin Hwf]. rewrite workers_step_cases.
  intros [Hs| [Hs| (tid & Hs)]].
  - unfold spawn in Hs. case_decide; [|done]. simplify_eq/=.
    split; simpl.
    + rewrite length_app. simpl. lia.
    + intros j Hj. by apply lookup_app_l_Some, Hjoin.
    + intros tid p [Hl|[_ Hl]]%lookup_app_Some; [by eapply Hwf|].
      apply list_lookup_singleton_Some in Hl as [_ <-]. apply iteration_wf.
  - unfold join in Hs. case_decide; [|done].
    destruct (threads st !! joined st) as [[]|] eqn:Hl; simplify_eq/=.
    split; simpl; [lia| |done].
    intros j Hj. destruct (decide (j = joined st)) as [->|]; [done|].
    apply Hjoin. lia.
  - apply worker_cases in Hs as (p & p' & Hl & Hthreads & Hjoined & Hmove).
    split; rewrite ?Hthreads, ?Hjoined.
    + by rewrite length_insert.
    + intros j Hj. rewrite list_lookup_insert_ne; [by apply Hjoin|].
      intros ->. rewrite (Hjoin _ Hj) in Hl. simplify_eq.
      by destruct Hmove as [(i & ? & _)| [(i & ? & _)| [(i & ? & _)| (i & ? & _)]]].
    + intros tid' q Hq. destruct (decide (tid = tid')) as [<-|Hne].
      * rewrite list_lookup_insert_eq in Hq by (by eapply lookup_lt_Some).
        simplify_eq. specialize (Hwf _ _ Hl).
        destruct Hmove as [(i & -> & -> & _)| [(i & -> & -> & _)|
          [(i & -> & -> & _)| (i & -> & -> & _)]]]; try done.
        apply iteration_wf.
      * rewrite list_lookup_insert_ne in Hq by done. by eapply Hwf.
Qed.

Lemma threads_inv_reachable st : wreachable st → threads_inv st.
Proof.
  unfold Sched.reachable. revert st. apply rtc_ind_r.
  - split; simpl; [lia|lia|done].
  - eauto using threads_inv_step.
Qed.

(** *** The lock *)

Lemma iteration_not_critical i : in_critical_section (iteration steps i) = false.
Proof. unfold iteration. by case_decide. Qed.

Lemma holds_lock_insert st st' tid p p' tid' :
  threads st !! tid = Some p →
  threads st' = <[tid := p']> (threads st) →
  holds_lock st' tid' ↔
    (tid' = tid ∧ in_critical_section p' = true)
    ∨ (tid' ≠ tid ∧ holds_lock st tid').
Proof.
  intros Hl Hthreads. unfold holds_lock. rewrite Hthreads.
  destruct (decide (tid' = tid)) as [->|Hne].
  - rewrite list_lookup_insert_eq by (by eapply lookup_lt_Some). naive_solver.
  - rewrite list_lookup_insert_ne by done. naive_solver.
Qed.

Lemma lock_inv_step st st' : lock_inv st → wstep st st' → lock_inv st'.
Proof.
  intros (holder & Hlock & Hholder). rewrite workers_step_cases.
  intros [Hs| [Hs| (tid & Hs)]].
  - unfold spawn in Hs. case_decide; [|done]. simplify_eq/=.
    exists holder. split; [done|]. intros tid. rewrite <-Hholder.
    unfold holds_lock. simpl. split.
    + intros (p & [Hl|[_ Hl]]%lookup_app_Some & Hp); [by exists p|].
      apply list_lookup_singleton_Some in Hl as [_ <-].
      by rewrite iteration_not_critical in Hp.
    + intros (p & Hl & Hp). exists p. split; [|done]. by apply lookup_app_l_Some.
  - unfold join in Hs. case_decide; [|done].
    destruct (threads st !! joined st) as [[]|] eqn:Hl; simplify_eq/=.
    by exists holder.
  - apply worker_cases in Hs as (p & p' & Hl & Hthreads & _ & Hmove).
    pose proof (holds_lock_insert st st' tid p p') as Hins.
    assert (holds_lock st tid ↔ in_critical_section p = true) as Hself.
    { unfold holds_lock. rewrite Hl. naive_solver. }
    destruct Hmove as [(i & -> & -> & Hfree & Htaken & _)|
      [(i & -> & -> & Hsame & _)| [(i & -> & -> & Hfree & _)|
      (i & -> & -> & Hsame & _)]]].
    + rewrite Hlock in Hfree. apply bool_decide_eq_false in Hfree.
      assert (holder = None) as -> by (by destruct holder; [destruct Hfree|]).
      exists (Some tid). split; [by rewrite Htaken|].
      intros tid'. rewrite Hins, Hholder by done. naive_solver.
    + exists holder. split; [by rewrite Hsame|].
      intros tid'. rewrite Hins, Hholder by done.
      rewrite Hholder in Hself. simpl in *. naive_solver.
    + exists None. split; [by rewrite Hfree|].
      intros tid'. rewrite Hins, Hholder by done.
      rewrite Hholder in Hself. simpl in *. naive_solver.
    + exists holder. split; [by rewrite Hsame|].
      intros tid'. rewrite Hins, Hholder by done.
      rewrite Hholder in Hself. rewrite iteration_not_critical.
      simpl in *. naive_solver.
Qed.

Lemma lock_inv_reachable st : wreachable st → lock_inv st.
Proof.
  unfold Sched.reachable. revert st. apply rtc_ind_r.
  - exists None. split; [done|]. intros tid. unfold holds_lock. simpl.
    rewrite lookup_nil. naive_solver.
  - eauto using lock_inv_step.
Qed.

(** *** The contents of the shared list *)

Lemma appended_iteration_0 : appended steps (iteration steps 0) = 0%nat.
Proof. unfold iteration. case_decide; simpl; lia. Qed.

Lemma appended_iteration_S i :
  (i < steps)%nat → appended steps (iteration steps (Datatypes.S i)) = Datatypes.S i.
Proof. intros Hi. unfold iteration. case_decide; simpl; lia. Qed.

Lemma done_steps_insert st st' tid p p' tid' :
  threads st !! tid = Some p →
  threads st' = <[tid := p']> (threads st) →
  done_steps st' tid'
  = if decide (tid' = tid) then appended steps p' else done_steps st tid'.
Proof.
  intros Hl Hthreads. unfold SharedLog.done_steps. rewrite Hthreads.
  case_decide as Heq.
  - subst tid'. by rewrite list_lookup_insert_eq by (by eapply lookup_lt_Some).
  - by rewrite list_lookup_insert_ne.
Qed.

Lemma done_steps_same st st' tid p p' :
  threads st !! tid = Some p →
  threads st' = <[tid := p']> (threads st) →
  appended steps p' = appended steps p →
  ∀ tid', done_steps st' tid' = done_steps st tid'.
Proof.
  intros Hl Hthreads Happ tid'.
  rewrite (done_steps_insert st st' tid p p') by done.
  case_decide as Heq; [|done]. subst tid'.
  unfold SharedLog.done_steps. by rewrite Hl.
Qed.

Lemma log_inv_step st st' :
  threads_inv st → log_inv st → wstep st st' → log_inv st'.
Proof.
  intros [_ _ Hwf] (tags & Hlog & Htags). rewrite workers_step_cases.
  intros [Hs| [Hs| (tid & Hs)]].
  - unfold spawn in Hs. case_decide; [|done]. simplify_eq/=.
    exists tags. split; [done|]. intros tid. rewrite Htags.
    do 2 f_equal. unfold SharedLog.done_steps. simpl.
    destruct (threads st !! tid) as [p|] eqn:Hl.
    + by rewrite (lookup_app_l_Some _ _ _ _ Hl).
    + apply lookup_ge_None in Hl.
      rewrite lookup_app_r by done.
      destruct (tid - length (threads st))%nat; simpl; [|done].
      by rewrite appended_iteration_0.
  - unfold join in Hs. case_decide; [|done].
    destruct (threads st !! joined st) as [[]|] eqn:Hl; simplify_eq/=.
    by exists tags.
  - apply worker_cases in Hs as (p & p' & Hl & Hthreads & _ & Hmove).
    specialize (Hwf _ _ Hl).
    destruct Hmove as [(i & -> & -> & _ & _ & Hdata)|
      [(i & -> & -> & _ & Hdata)| [(i & -> & -> & _ & Hdata)|
      (i & -> & -> & _ & Hdata)]]].
    + exists tags. split; [congruence|]. intros tid'.
      by rewrite (done_steps_same st st' tid (AtAcquire i) (AtAppend i)).
    + exists (tags ++ [(tid, i)]). split.
      { by rewrite Hdata, Hlog, fmap_app. }
      intros tid'. rewrite filter_app, Htags.
      rewrite (done_steps_insert st st' tid (AtAppend i) (AtRelease i)) by done.
      case_decide as Heq.
      * subst tid'. rewrite filter_cons_True, filter_nil by done.
        unfold SharedLog.done_steps. rewrite Hl. cbn [from_option appended].
        by rewrite seq_S, fmap_app.
      * rewrite filter_cons_False, filter_nil by (simpl; congruence).
        by rewrite app_nil_r.
    + exists tags. split; [congruence|]. intros tid'.
      by rewrite (done_steps_same st st' tid (AtRelease i) (AtSleep i)).
    + exists tags. split; [congruence|]. intros tid'.
      rewrite (done_steps_same st st' tid (AtSleep i)
                 (iteration steps (Datatypes.S i))); [done..|].
      by apply appended_iteration_S.
Qed.

Lemma log_inv_reachable st : wreachable st → log_inv st.
Proof.
  unfold Sched.reachable. revert st. apply rtc_ind_r.
  - exists []. split; [done|]. intros tid. by rewrite filter_nil.
  - intros st st' Hreach Hstep IH.
    eapply log_inv_step; [|done..]. by apply threads_inv_reachable.
Qed.

(** *** Consequences *)

Lemma done_steps_le st tid : threads_inv st → (done_steps st tid ≤ steps)%nat.
Proof.
  intros [_ _ Hwf]. unfold SharedLog.done_steps.
  destruct (threads st !! tid) as [p|] eqn:Hl; simpl; [|lia].
  specialize (Hwf _ _ Hl). destruct p; simpl in *; lia.
Qed.

Lemma done_steps_started st tid :
  (0 < done_steps st tid)%nat → (tid < length (threads st))%nat.
Proof.
  unfold SharedLog.done_steps. destruct (threads st !! tid) as [p|] eqn:Hl; simpl; [|lia].
  intros _. by eapply lookup_lt_Some.
Qed.

Lemma tags_elem_of st (tags : list (nat * nat)) tid i :
  (∀ tid, filter (λ t, t.1 = tid) tags
          = (λ i, (tid, i)) <$> seq 0 (done_steps st tid)) →
  (tid, i) ∈ tags ↔ (i < done_steps st tid)%nat.
Proof.
  intros Htags.
  assert ((tid, i) ∈ tags ↔ (tid, i) ∈ filter (λ t, t.1 = tid) tags) as ->.
  { rewrite list_elem_of_filter. naive_solver. }
  rewrite Htags, list_elem_of_fmap. split.
  - intros (i' & [= ->] & Hi%elem_of_seq). lia.
  - intros Hi. exists i. split; [done|]. apply elem_of_seq. lia.
Qed.

Lemma completed_done_steps st tid :
  threads_inv st → completed worker_count st →
  done_steps st tid = if decide (tid < worker_count)%nat then steps else 0%nat.
Proof.
  intros [_ Hjoin _] [Hlen Hjoined]. unfold SharedLog.done_steps. case_decide as Htid.
  - rewrite Hjoin by lia. done.
  - rewrite (proj2 (lookup_ge_None _ _)) by lia. done.
Qed.

(** Once every thread is joined, the shared list holds each entry of each
    thread exactly once. *)
Lemma completed_log_permutation st :
  wreachable st → completed worker_count st →
  shared_data st ≡ₚ all_entries worker_count steps.
Proof.
  intros Hreach Hdone.
  pose proof (threads_inv_reachable _ Hreach) as Hinv.
  destruct (log_inv_reachable _ Hreach) as (tags & -> & Htags).
  unfold all_entries. apply fmap_Permutation, NoDup_Permutation.
  - apply nodup_by_thread. intros tid. rewrite Htags.
    apply NoDup_fmap_2_strong; [|apply NoDup_seq]. by intros i j _ _ [= ->].
  - apply all_tags_nodup.
  - intros [tid i]. rewrite (tags_elem_of st), all_tags_elem_of by done.
    rewrite completed_done_steps by done. case_decide; lia.
Qed.

(** No deadlock: as long as a thread is not joined, some thread can act. *)
Lemma workers_progress st :
  wreachable st → wsuccs st = [] → completed worker_count st.
Proof.
  intros Hreach Hstuck.
  destruct (threads_inv_reachable _ Hreach) as [Hlen Hjoin Hwf].
  destruct (lock_inv_reachable _ Hreach) as (holder & Hlock & Hholder).
  assert (∀ st', ¬ wstep st st') as Hno.
  { intros st'. unfold Sched.step. rewrite Hstuck. apply not_elem_of_nil. }
  setoid_rewrite workers_step_cases in Hno.
  assert (length (threads st) = worker_count) as Hall.
  { destruct (decide (length (threads st) = worker_count)) as [|Hne]; [done|].
    exfalso. eapply Hno. left. unfold spawn. rewrite decide_True; [done|lia]. }
  assert (∀ tid p, threads st !! tid = Some p → in_critical_section p = false)
    as Hfree.
  { intros tid p Hl. destruct (in_critical_section p) eqn:Hcs; [|done].
    exfalso. destruct p as [i|i|i|i|]; try done.
    - eapply (Hno _). do 2 right. exists tid. unfold worker. by rewrite Hl.
    - eapply (Hno _). do 2 right. exists tid. unfold worker. by rewrite Hl. }
  assert (lock st = false) as Hunlocked.
  { rewrite Hlock. destruct holder as [tid|]; [|done].
    destruct (proj2 (Hholder tid) eq_refl) as (p & Hl & Hcs).
    by rewrite (Hfree _ _ Hl) in Hcs. }
  assert (∀ tid p, threads st !! tid = Some p → p = Finished) as Hfin.
  { intros tid p Hl. destruct p as [i|i|i|i|]; [| | | |done]; exfalso.
    - eapply (Hno _). do 2 right. exists tid. unfold worker.
      by rewrite Hl, Hunlocked.
    - by specialize (Hfree _ _ Hl).
    - by specialize (Hfree _ _ Hl).
    - eapply (Hno _). do 2 right. exists tid. unfold worker. by rewrite Hl. }
  split; [done|].
  assert (joined st ≤ length (threads st))%nat as Hle.
  { destruct (decide (joined st ≤ length (threads st))%nat) as [|Hgt]; [done|].
    exfalso. specialize (Hjoin (length (threads st)) ltac:(lia)).
    apply lookup_lt_Some in Hjoin. lia. }
  destruct (decide (joined st = worker_count)) as [|Hne]; [done|].
  exfalso.
  destruct (lookup_lt_is_Some_2 (threads st) (joined st)) as [p Hl]; [lia|].
  rewrite (Hfin _ _ Hl) in Hl.
  eapply (Hno _). right; left. unfold join. rewrite decide_True by done.
  by rewrite Hl.
Qed.

(** Under every scheduler the threads run to completion. *)
Lemma run_workers_completed sched :
  completed worker_count
    (Sched.run wsuccs sched (worker_count * (4 * steps + 2)) 0 init).
Proof.
  apply workers_progress; [apply run_reachable|].
  apply (run_stuck wsuccs (remaining worker_count steps) workers_step_remaining).
  unfold remaining. simpl. lia.
Qed.
End worker_facts.

(** ** The shared list after the run *)

(** C2: once [run_workers] has completed (every worker started and
    joined), the shared list has exactly
    [worker_count * steps_per_worker] entries, each entry of each worker
    once: none duplicated, none missing. Under every scheduler the run
    completes, and for 3 workers of 5 steps the list has exactly 15
    distinct entries, among them every expected one. *)
Theorem run_workers_log_length (worker_count steps_per_worker : nat)
    (st : SharedLog.state) (sched : nat → nat) :
  Sched.reachable (SharedLog.succs worker_count steps_per_worker)
    SharedLog.init st →
  SharedLog.completed worker_count st →
  length (SharedLog.shared_data st) = (worker_count * steps_per_worker)%nat
  ∧ SharedLog.shared_data st
    ≡ₚ SharedLog.all_entries worker_count steps_per_worker
  ∧ NoDup (SharedLog.shared_data st)
  ∧ SharedLog.completed worker_count
      (Sched.run (SharedLog.succs worker_count steps_per_worker) sched
         (worker_count * (4 * steps_per_worker + 2)) 0 SharedLog.init)
  ∧ length (SharedLog.run_workers worker_count steps_per_worker sched)
    = (worker_count * steps_per_worker)%nat
  ∧ length (SharedLog.run_workers 3 5 sched) = 15%nat
  ∧ NoDup (SharedLog.run_workers 3 5 sched)
  ∧ (∀ tid i, (tid < 3)%nat → (i < 5)%nat →
       SharedLog.entry tid i ∈ SharedLog.run_workers 3 5 sched).
Proof.
  intros Hreach Hdone.
  assert (∀ w s st', Sched.reachable (SharedLog.succs w s) SharedLog.init st' →
            SharedLog.completed w st' →
            length (SharedLog.shared_data st') = (w * s)%nat
            ∧ NoDup (SharedLog.shared_data st')) as Hcore.
  { intros w s st' Hr Hd.
    pose proof (completed_log_permutation w s st' Hr Hd) as Hperm.
    rewrite Hperm. unfold SharedLog.all_entries.
    rewrite length_fmap, all_tags_length. split; [done|].
    apply (NoDup_fmap_2 _), all_tags_nodup. }
  assert (∀ w s, Sched.reachable (SharedLog.succs w s) SharedLog.init
                   (Sched.run (SharedLog.succs w s) sched (w * (4 * s + 2)) 0
                      SharedLog.init)) as Hrun by (intros; apply run_reachable).
  pose proof run_workers_completed as Hcompleted.
  split_and!.
  - apply (Hcore _ _ _ Hreach Hdone).
  - by apply completed_log_permutation.
  - apply (Hcore _ _ _ Hreach Hdone).
  - apply Hcompleted.
  - apply (Hcore _ _ _ (Hrun _ _) (Hcompleted _ _ _)).
  - apply (Hcore _ _ _ (Hrun 3 5)%nat (Hcompleted _ _ _)).
  - apply (Hcore _ _ _ (Hrun 3 5)%nat (Hcompleted _ _ _)).
  - intros tid i Htid Hi. unfold SharedLog.run_workers.
    rewrite (completed_log_permutation 3 5) by done.
    apply (list_elem_of_fmap_2 SharedLog.tag_entry _ (tid, i)).
    by apply all_tags_elem_of.
Qed.

Lemma run_workers_log_length_witness :
  length (SharedLog.run_workers 3 5 (λ n, (7 * n + 3)%nat)) = 15%nat.
Proof.
  pose (sched := λ n : nat, (7 * n + 3)%nat).
  apply (run_workers_log_length 3 5
           (Sched.run (SharedLog.succs 3 5) sched 66 0 SharedLog.init) sched).
  - apply run_reachable.
  - vm_compute. done.
Defined.

(** C3, as the code has it: every entry a worker appends is the string
    ["线程{id}-任务{i}"], the words for thread and task followed by the
    worker's identity and its step number in decimal. In every state the
    workers can reach, also while the shared list is still empty: every
    entry of the list is the entry of a started worker and one of its
    steps; an action of the worker [tid] leaves the list alone or appends
    the entry of [tid] itself for its current step; a worker that stands
    at its append does append that entry; for 3 workers of 5 steps the
    entries are 线程{0,1,2}-任务{0..4}. *)
Theorem worker_entries_formatted (worker_count steps_per_worker : nat)
    (st : SharedLog.state) :
  Sched.reachable (SharedLog.succs worker_count steps_per_worker)
    SharedLog.init st →
  (∀ e, e ∈ SharedLog.shared_data st →
     ∃ tid i, (tid < worker_count)%nat ∧ (i < steps_per_worker)%nat
              ∧ e = "线程" +:+ pretty tid +:+ "-任务" +:+ pretty i)
  ∧ (∀ tid st', SharedLog.worker steps_per_worker tid st = Some st' →
       SharedLog.shared_data st' = SharedLog.shared_data st
       ∨ ∃ i, SharedLog.threads st !! tid = Some (SharedLog.AtAppend i)
              ∧ (tid < worker_count)%nat ∧ (i < steps_per_worker)%nat
              ∧ SharedLog.shared_data st'
                = SharedLog.shared_data st
                  ++ ["线程" +:+ pretty tid +:+ "-任务" +:+ pretty i])
  ∧ (∀ tid i, SharedLog.threads st !! tid = Some (SharedLog.AtAppend i) →
       ∃ st', SharedLog.worker steps_per_worker tid st = Some st'
              ∧ SharedLog.shared_data st'
                = SharedLog.shared_data st
                  ++ ["线程" +:+ pretty tid +:+ "-任务" +:+ pretty i])
  ∧ SharedLog.all_entries 3 5
    = ["线程0-任务0"; "线程0-任务1"; "线程0-任务2"; "线程0-任务3"; "线程0-任务4";
       "线程1-任务0"; "线程1-任务1"; "线程1-任务2"; "线程1-任务3"; "线程1-任务4";
       "线程2-任务0"; "线程2-任务1"; "线程2-任务2"; "线程2-任务3"; "线程2-任务4"].
Proof.
  intros Hreach.
  pose proof (threads_inv_reachable _ _ _ Hreach) as Hinv.
  split_and!; [| | |reflexivity].
  - intros e He.
    destruct (log_inv_reachable _ _ _ Hreach) as (tags & Hlog & Htags).
    rewrite Hlog in He. apply list_elem_of_fmap in He as ([tid i] & -> & Hin).
    apply (tags_elem_of steps_per_worker st) in Hin; [|done].
    exists tid, i. split_and!; [| |done].
    + assert (tid < length (SharedLog.threads st))%nat
        by (apply (done_steps_started steps_per_worker); lia).
      destruct Hinv as [Hlen _ _]. lia.
    + pose proof (done_steps_le worker_count steps_per_worker st tid Hinv). lia.
  - intros tid st' Hw.
    apply worker_cases in Hw as (p & p' & Hl & _ & _ & Hmove).
    destruct Hmove as [(i & _ & _ & _ & _ & Hdata)|
      [(i & -> & _ & _ & Hdata)| [(i & _ & _ & _ & Hdata)|
      (i & _ & _ & _ & Hdata)]]]; [by left| |by left..].
    right. exists i. destruct Hinv as [Hlen _ Hwf].
    split_and!; [done| | |done].
    + apply lookup_lt_Some in Hl. lia.
    + apply (Hwf _ _ Hl).
  - intros tid i Hl. unfold SharedLog.worker. rewrite Hl. by eexists.
Qed.

Lemma worker_entries_formatted_witness :
  let st := Sched.run (SharedLog.succs 3 5) (λ n, (7 * n + 3)%nat) 3 0
              SharedLog.init in
  SharedLog.shared_data st = []
  ∧ ∃ st', SharedLog.worker 5 1 st = Some st'
           ∧ SharedLog.shared_data st' = ["线程1-任务0"%string].
Proof.
  intros st. split; [reflexivity|].
  destruct (worker_entries_formatted 3 5 st) as (_ & _ & Happend & _).
  - apply run_reachable.
  - destruct (Happend 1%nat 0%nat) as (st' & Hw & Hdata); [reflexivity|].
    exists st'. split; [done|]. rewrite Hdata. reflexivity.
Defined.

(** C3 as stated fails: the first entry of a run is not of the form
    ["worker{id}-step{i}"] for any [id] and [i]. *)
Lemma worker_entries_not_spec_format :
  ¬ ∀ e, e ∈ SharedLog.run_workers 3 5 (λ n, n) →
         ∃ id i, e = SharedLog.spec_entry id i.
Proof.
  intros Hall.
  destruct (Hall "线程0-任务0"%string) as (id & i & Heq).
  - vm_compute. left.
  - unfold SharedLog.spec_entry in Heq. cbn [String.append] in Heq.
    discriminate Heq.
Qed.

(** C6: in every shared list the workers can produce, and so in the final
    one, the entries of one worker appear in its step order: of two
    entries of the same worker the earlier one has the smaller step
    number. After the run the entries of a worker, in their order, are
    exactly its steps [0, 1, ..., steps_per_worker - 1]. *)
Theorem worker_entries_in_step_order (worker_count steps_per_worker : nat)
    (st : SharedLog.state) (tid : nat) :
  Sched.reachable (SharedLog.succs worker_count steps_per_worker)
    SharedLog.init st →
  (∀ p q i j, (p < q)%nat →
     SharedLog.shared_data st !! p = Some (SharedLog.entry tid i) →
     SharedLog.shared_data st !! q = Some (SharedLog.entry tid j) →
     (i < j)%nat)
  ∧ (SharedLog.completed worker_count st → (tid < worker_count)%nat →
     SharedLog.entries_of steps_per_worker tid (SharedLog.shared_data st)
     = SharedLog.entry tid <$> seq 0 steps_per_worker).
Proof.
  intros Hreach.
  pose proof (threads_inv_reachable _ _ _ Hreach) as Hinv.
  destruct (log_inv_reachable _ _ _ Hreach) as (tags & Hlog & Htags).
  split.
  - intros p q i j Hpq Hp Hq. rewrite Hlog in Hp, Hq.
    apply list_lookup_fmap_Some in Hp as (tp & Hep & Htp).
    apply list_lookup_fmap_Some in Hq as (tq & Heq & Htq).
    apply (inj SharedLog.tag_entry (tid, i)) in Hep.
    apply (inj SharedLog.tag_entry (tid, j)) in Heq. subst tp tq.
    destruct (filter_lookup_order (λ t, t.1 = tid) tags p q (tid, i) (tid, j))
      as (p' & q' & Hlt & Hp' & Hq'); [done..|].
    rewrite Htags in Hp', Hq'.
    apply list_lookup_fmap_Some in Hp' as (i' & [= <-] & Hi').
    apply list_lookup_fmap_Some in Hq' as (j' & [= <-] & Hj').
    apply lookup_seq in Hi', Hj'. lia.
  - intros Hdone Htid. unfold SharedLog.entries_of. rewrite Hlog.
    rewrite (filter_fmap_ext SharedLog.tag_entry _ (λ t, t.1 = tid)).
    + rewrite Htags, (completed_done_steps worker_count) by done.
      rewrite decide_True by done. by rewrite <-list_fmap_compose.
    + intros [tid' i] Hin. simpl.
      apply (tags_elem_of steps_per_worker st) in Hin; [|done].
      pose proof (done_steps_le worker_count steps_per_worker st tid' Hinv).
      rewrite list_elem_of_fmap. unfold SharedLog.tag_entry. simpl. split.
      * intros (k & Hk & _). by apply entry_inj in Hk as [-> _].
      * intros ->. exists i. split; [done|]. apply elem_of_seq. lia.
Qed.

Lemma worker_entries_in_step_order_witness :
  SharedLog.entries_of 5 1 (SharedLog.run_workers 3 5 (λ n, (7 * n + 3)%nat))
  = SharedLog.entry 1 <$> seq 0 5.
Proof.
  pose (sched := λ n : nat, (7 * n + 3)%nat).
  apply (worker_entries_in_step_order 3 5
           (Sched.run (SharedLog.succs 3 5) sched 66 0 SharedLog.init) 1).
  - apply run_reachable.
  - vm_compute. done.
  - lia.
Defined.

(** C7: in every state the workers can reach, at most one worker is
    between taking the lock and giving it back, and one is exactly when
    the lock is taken; every action that changes the shared list is the
    append of the worker that holds the lock, which then stands at the
    end of its [with] block; and the next action of a worker standing
    there gives the lock back without touching the list, so the lock is
    held for one append. *)
Theorem shared_list_appends_serialized (worker_count steps_per_worker : nat)
    (st : SharedLog.state) :
  Sched.reachable (SharedLog.succs worker_count steps_per_worker)
    SharedLog.init st →
  (∀ tid1 tid2, SharedLog.holds_lock st tid1 → SharedLog.holds_lock st tid2 →
     tid1 = tid2)
  ∧ ((∃ tid, SharedLog.holds_lock st tid) ↔ SharedLog.lock st = true)
  ∧ (∀ st', Sched.step (SharedLog.succs worker_count steps_per_worker) st st' →
       SharedLog.shared_data st' ≠ SharedLog.shared_data st →
       SharedLog.lock st = true
       ∧ ∃ tid i,
           SharedLog.holds_lock st tid
           ∧ SharedLog.threads st !! tid = Some (SharedLog.AtAppend i)
           ∧ SharedLog.shared_data st'
             = SharedLog.shared_data st ++ [SharedLog.entry tid i]
           ∧ SharedLog.threads st' !! tid = Some (SharedLog.AtRelease i)
           ∧ SharedLog.lock st' = true)
  ∧ (∀ tid i, SharedLog.threads st !! tid = Some (SharedLog.AtRelease i) →
       ∃ st', SharedLog.worker steps_per_worker tid st = Some st'
              ∧ SharedLog.lock st' = false
              ∧ SharedLog.shared_data st' = SharedLog.shared_data st
              ∧ ¬ SharedLog.holds_lock st' tid).
Proof.
  intros Hreach.
  destruct (lock_inv_reachable _ _ _ Hreach) as (holder & Hlock & Hholder).
  assert (∀ tid, SharedLog.holds_lock st tid → SharedLog.lock st = true)
    as Hheld.
  { intros tid Htid%Hholder. by rewrite Hlock, Htid. }
  split_and!.
  - intros tid1 tid2 H1%Hholder H2%Hholder. congruence.
  - split; [intros [tid Htid]; by eapply Hheld|].
    rewrite Hlock. destruct holder as [tid|]; [|done].
    intros _. exists tid. by apply Hholder.
  - intros st' Hstep Hchanged.
    apply workers_step_cases in Hstep as [Hs| [Hs| (tid & Hs)]].
    + unfold SharedLog.spawn in Hs. case_decide; by simplify_eq/=.
    + unfold SharedLog.join in Hs. case_decide; [|done].
      destruct (SharedLog.threads st !! SharedLog.joined st) as [[]|];
        by simplify_eq/=.
    + apply worker_cases in Hs as (p & p' & Hl & Hthreads & _ & Hmove).
      destruct Hmove as [(i & _ & _ & _ & _ & Hdata)|
        [(i & -> & -> & Hsame & Hdata)| [(i & _ & _ & _ & Hdata)|
        (i & _ & _ & _ & Hdata)]]]; try done.
      assert (SharedLog.holds_lock st tid) as Htid by (by eexists).
      split; [by eapply Hheld|]. exists tid, i. split_and!; [done..| |].
      * rewrite Hthreads.
        by rewrite list_lookup_insert_eq by (by eapply lookup_lt_Some).
      * rewrite Hsame. by eapply Hheld.
  - intros tid i Hl. unfold SharedLog.worker. rewrite Hl.
    eexists. split_and!; [done..|]. simpl.
    intros (p & Hp & Hcs). simpl in Hp.
    rewrite list_lookup_insert_eq in Hp by (by eapply lookup_lt_Some).
    by simplify_eq.
Qed.

Lemma shared_list_appends_serialized_witness :
  let st := Sched.run (SharedLog.succs 3 5) (λ n, n) 5 0 SharedLog.init in
  SharedLog.holds_lock st 0 ∧ SharedLog.lock st = true
  ∧ ∀ tid, SharedLog.holds_lock st tid → tid = 0%nat.
Proof.
  intros st.
  assert (SharedLog.holds_lock st 0) as H0.
  { eexists. split; [vm_compute; reflexivity|reflexivity]. }
  split_and!; [done|vm_compute; reflexivity|].
  intros tid Htid.
  apply (shared_list_appends_serialized 3 5 st); [apply run_reachable|done..].
Defined.

(** * Further properties *)

(** ** The CPU-bound tasks on every integer *)

Section cpu_more.
Import Cpu.

Lemma cpu_as_sum (n : Z) :
  cpu_intensive_task n = sum_squares_below (Z.to_nat n).
Proof.
  unfold cpu_intensive_task. destruct (decide (0 ≤ n)) as [Hn|Hn].
  - rewrite <-(Z2Nat.id n) at 1 by lia. apply loop_is_sum.
  - unfold range. rewrite seqZ_nil by lia.
    by replace (Z.to_nat n) with 0%nat by lia.
Qed.

Lemma sum_squares_below_step (k : nat) :
  sum_squares_below k ≤ sum_squares_below (S k).
Proof. cbn [sum_squares_below]. nia. Qed.

Lemma sum_squares_below_mono (k1 k2 : nat) :
  (k1 ≤ k2)%nat → sum_squares_below k1 ≤ sum_squares_below k2.
Proof.
  induction 1 as [|k2 _ IH]; [lia|].
  pose proof (sum_squares_below_step k2). lia.
Qed.

Lemma cpu_closed_form (n : Z) :
  0 ≤ n → cpu_intensive_task n = ((n - 1) * n * (2 * n - 1)) `div` 6.
Proof.
  intros Hn. rewrite cpu_as_sum.
  pose proof (six_sum_squares (Z.to_nat n)) as H6.
  rewrite Z2Nat.id in H6 by lia.
  by rewrite <-H6, Z.mul_comm, Z.div_mul.
Qed.
End cpu_more.

(** X1: called with [n <= 0], both CPU tasks run their loop zero times
    and return 0. *)
Theorem cpu_tasks_zero_on_nonpositive (n : Z) :
  n ≤ 0 →
  Cpu.cpu_intensive_task n = 0 ∧ Cpu.cpu_task_for_process n = 0.
Proof.
  intros Hn. unfold Cpu.cpu_task_for_process, Cpu.cpu_intensive_task, Cpu.range.
  by rewrite seqZ_nil.
Qed.

Lemma cpu_tasks_zero_on_nonpositive_witness :
  -7 ≤ 0 ∧ Cpu.cpu_intensive_task (-7) = 0.
Proof.
  split; [lia|]. apply (cpu_tasks_zero_on_nonpositive (-7)). lia.
Defined.

(** X2: the result of [cpu_intensive_task] is never negative and never
    decreases when [n] grows; one more iteration adds the square of the
    last index. *)
Theorem cpu_intensive_task_monotone (n m : Z) :
  n ≤ m →
  0 ≤ Cpu.cpu_intensive_task n
  ∧ Cpu.cpu_intensive_task n ≤ Cpu.cpu_intensive_task m
  ∧ (0 ≤ n → Cpu.cpu_intensive_task (n + 1) = Cpu.cpu_intensive_task n + n * n).
Proof.
  intros Hnm. rewrite !cpu_as_sum. split_and!.
  - apply (sum_squares_below_mono 0). lia.
  - apply sum_squares_below_mono. lia.
  - intros Hn. replace (Z.to_nat (n + 1)) with (S (Z.to_nat n)) by lia.
    cbn [Cpu.sum_squares_below]. by rewrite Z2Nat.id.
Qed.

Lemma cpu_intensive_task_monotone_witness :
  3 ≤ 5 ∧ Cpu.cpu_intensive_task 3 ≤ Cpu.cpu_intensive_task 5.
Proof.
  split; [lia|]. apply (cpu_intensive_task_monotone 3 5). lia.
Defined.

(** ** More on schedulers *)

Section sched_more.
Context {S : Type} (succs : S → list S) (μ : S → nat).
Hypothesis μ_decreases : ∀ st st', Sched.step succs st st' → (μ st' < μ st)%nat.

(** A measure that every action decreases bounds every execution. *)
Lemma nsteps_bounded k st st' :
  nsteps (Sched.step succs) k st st' → (k + μ st' ≤ μ st)%nat.
Proof.
  induction 1 as [|k st st1 st' Hstep _ IH]; [lia|].
  apply μ_decreases in Hstep. lia.
Qed.
End sched_more.

(** ** More on the thread pool *)

Section pool_more.
Import Comparator Script.
Context {A B : Type} (task : A → B) (worker_count : nat).
Implicit Types (st : @state A B) (args : list A).

Local Abbreviation psuccs := (succs task worker_count).
Local Abbreviation pstep := (Sched.step psuccs).

Lemma run_concurrent_fmap args sched :
  (1 ≤ worker_count)%nat →
  run_concurrent task worker_count args sched = inr (task <$> args).
Proof.
  intros Hw. unfold run_concurrent. rewrite decide_False by lia. f_equal.
  eapply pool_inv_final.
  - apply (pool_inv_reachable task worker_count), run_reachable.
  - eapply pool_inv_progress;
      [done|apply (pool_inv_reachable task worker_count), run_reachable|].
    apply (run_stuck psuccs remaining (pool_step_remaining task worker_count)).
    unfold remaining. simpl. lia.
Qed.

Lemma running_bound_step st st' :
  (length (running st) ≤ worker_count)%nat → pstep st st' →
  (length (running st') ≤ worker_count)%nat.
Proof.
  intros Hle. rewrite pool_step_cases. intros [Hs| [Hs| [Hs| (j & Hs)]]].
  - unfold submit in Hs. destruct (to_submit st); by simplify_eq/=.
  - unfold start in Hs. destruct (queue st); [done|].
    case_decide; simplify_eq/=. rewrite length_app. simpl. lia.
  - unfold collect in Hs. destruct (to_submit st); [|done].
    destruct (futures st !! length (results st)) as [[b|]|]; by simplify_eq/=.
  - unfold finish in Hs. destruct (running st !! j) as [[i a]|] eqn:Hj;
      simplify_eq/=. rewrite length_delete by eauto. lia.
Qed.

Lemma collected_done_step st st' :
  collected_done st → pstep st st' → collected_done st'.
Proof.
  intros Hdone. rewrite pool_step_cases. intros [Hs| [Hs| [Hs| (j & Hs)]]].
  - unfold submit in Hs. destruct (to_submit st); simplify_eq/=.
    intros i Hi. simpl in *. destruct (Hdone i Hi) as [b Hb]. exists b.
    by apply lookup_app_l_Some.
  - unfold start in Hs. destruct (queue st); [done|].
    case_decide; by simplify_eq/=.
  - unfold collect in Hs. destruct (to_submit st); [|done].
    destruct (futures st !! length (results st)) as [[b|]|] eqn:Hl;
      simplify_eq/=.
    intros i Hi. simpl in *. rewrite length_app in Hi. simpl in Hi.
    destruct (decide (i = length (results st))) as [->|]; [by exists b|].
    apply Hdone. lia.
  - unfold finish in Hs. destruct (running st !! j) as [[k a]|] eqn:Hj;
      simplify_eq/=.
    intros i Hi. simpl in *. destruct (Hdone i Hi) as [b Hb].
    destruct (decide (k = i)) as [->|Hne].
    + exists (task a). apply list_lookup_insert_eq. by eapply lookup_lt_Some.
    + exists b. by rewrite list_lookup_insert_ne.
Qed.

Lemma collected_done_reachable args st :
  Sched.reachable psuccs (init args) st → collected_done st.
Proof.
  unfold Sched.reachable. revert st. apply rtc_ind_r.
  - intros i Hi. simpl in Hi. lia.
  - eauto using collected_done_step.
Qed.
End pool_more.

(** X3: whatever the scheduling of the two pool threads, the
    multi-threaded CPU block reads from its futures the same two results
    as the single-threaded block computes, each 41666654166667500000. *)
Theorem cpu_blocks_same_results (sched : nat → nat) :
  Script.cpu_multi_thread sched
    = inr [41666654166667500000; 41666654166667500000]
  ∧ Script.cpu_single_thread
    = (41666654166667500000, 41666654166667500000).
Proof.
  assert (Cpu.cpu_intensive_task 5000000 = 41666654166667500000) as Hv.
  { rewrite cpu_closed_form by lia. reflexivity. }
  split.
  - unfold Script.cpu_multi_thread. rewrite run_concurrent_fmap by lia.
    cbn [fmap list_fmap]. by rewrite Hv.
  - unfold Script.cpu_single_thread. cbv zeta. by rewrite Hv.
Qed.

(** X4: the pool never runs more items at once than it has worker
    threads. *)
Theorem pool_running_within_worker_count {A B : Type} (task : A → B)
    (worker_count : nat) (args_list : list A) (st : Comparator.state) :
  Sched.reachable (Comparator.succs task worker_count)
    (Comparator.init args_list) st →
  (length (Comparator.running st) ≤ worker_count)%nat.
Proof.
  unfold Sched.reachable. revert st. apply rtc_ind_r.
  - simpl. lia.
  - intros st st' _ Hstep IH. by eapply running_bound_step.
Qed.

Lemma pool_running_within_worker_count_witness :
  (length (Comparator.running
             (Sched.run (Comparator.succs Comparator.square 2) (λ n, n) 5 0
                (Comparator.init [1; 2; 3]%Z))) ≤ 2)%nat.
Proof.
  apply (pool_running_within_worker_count Comparator.square 2 [1; 2; 3]).
  apply run_reachable.
Defined.

(** X5: the pool terminates and, with at least one worker thread, never
    gets stuck: an execution on [k] arguments has at most [4 * k] actions,
    and in every state it can reach either all results are collected or
    some action is possible. *)
Theorem pool_terminates_without_deadlock {A B : Type} (task : A → B)
    (worker_count : nat) (args_list : list A) (st : Comparator.state)
    (n : nat) :
  nsteps (Sched.step (Comparator.succs task worker_count)) n
    (Comparator.init args_list) st →
  (n ≤ 4 * length args_list)%nat
  ∧ ((1 ≤ worker_count)%nat →
     Comparator.final st
     ∨ ∃ st', Sched.step (Comparator.succs task worker_count) st st').
Proof.
  intros Hsteps. split.
  - apply (nsteps_bounded _ Comparator.remaining
             (pool_step_remaining task worker_count)) in Hsteps.
    unfold Comparator.remaining in Hsteps at 2. simpl in Hsteps. lia.
  - intros Hw.
    destruct (Comparator.succs task worker_count st) as [|st' sts] eqn:Hs.
    + left. eapply pool_inv_progress; [done| |done].
      apply (pool_inv_reachable task worker_count). by eapply rtc_nsteps_2.
    + right. exists st'. unfold Sched.step. rewrite Hs. left.
Qed.

Lemma pool_terminates_without_deadlock_witness :
  (2 ≤ 4 * length [1; 2; 3]%Z)%nat.
Proof.
  pose (st1 := Comparator.State [2; 3] [None] [(0%nat, 1)] []
                 (@nil Z)).
  pose (st2 := Comparator.State [3] [None; None] [(0%nat, 1); (1%nat, 2)] []
                 (@nil Z)).
  apply (pool_terminates_without_deadlock Comparator.square 3 [1; 2; 3] st2 2).
  apply (nsteps_l _ _ _ st1); [vm_compute; left|].
  apply (nsteps_l _ _ _ st2); [vm_compute; left|].
  apply nsteps_O.
Defined.

(** X6: once every result is collected, the pool is idle: no item is
    queued or running, and every future holds the task's value on its
    argument. *)
Theorem pool_idle_when_final {A B : Type} (task : A → B)
    (worker_count : nat) (args_list : list A) (st : Comparator.state) :
  Sched.reachable (Comparator.succs task worker_count)
    (Comparator.init args_list) st →
  Comparator.final st →
  Comparator.queue st = [] ∧ Comparator.running st = []
  ∧ Comparator.futures st = (λ a, Some (task a)) <$> args_list.
Proof.
  intros Hreach [Hts Hlen].
  pose proof (collected_done_reachable task worker_count _ _ Hreach) as Hdone.
  destruct (pool_inv_reachable task worker_count _ _ Hreach)
    as [Hsub Hle _ Hit Hfut _ _].
  assert (Comparator.items st = []) as Hitems.
  { destruct (Comparator.items st) as [|[i a] l] eqn:Hi; [done|].
    destruct (Hit i a) as [_ Hnone]; [left|].
    destruct (Hdone i) as [b Hb]; [|congruence].
    rewrite Hlen. by eapply lookup_lt_Some. }
  apply app_eq_nil in Hitems as [Hq Hr]. split_and!; [done..|].
  rewrite Hts in Hsub. symmetry in Hsub. apply drop_nil_inv in Hsub.
  apply list_eq. intros i. rewrite list_lookup_fmap.
  destruct (Comparator.futures st !! i) as [o|] eqn:Hi.
  - destruct (Hfut _ _ Hi) as (a & Ha & Ho). rewrite Ha. simpl.
    destruct (Hdone i) as [b Hb]; [rewrite Hlen; by eapply lookup_lt_Some|].
    rewrite Hi in Hb. simplify_eq. done.
  - apply lookup_ge_None in Hi. rewrite (proj2 (lookup_ge_None _ _)); [done|lia].
Qed.

Lemma pool_idle_when_final_witness :
  Comparator.futures
    (Sched.run (Comparator.succs Comparator.square 2) (λ n, n) 12 0
       (Comparator.init [1; 2; 3]))
  = [Some 1; Some 4; Some 9].
Proof.
  apply (pool_idle_when_final Comparator.square 2 [1; 2; 3]).
  - apply run_reachable.
  - vm_compute. done.
Defined.

(** ** The I/O blocks *)

Section io_more.
Import Io Script.
Implicit Types (net : network) (net_at : nat → network) (t : trace).

(** What one call adds to the trace. *)
Local Abbreviation events net :=
  (EvGet url 3 :: if raises (net url 3) then [EvSleep 1] else []).

Lemma io_intensive_task_run net_at i t :
  io_intensive_task (net_at i) t
  = (Ret (status_at net_at i), t ++ events (net_at i)).
Proof.
  unfold io_intensive_task, try_except, requests_get, mbind, M_bind, mret,
    M_ret, time_sleep, status_at, url.
  destruct (net_at i _ 3) as [r|e]; simpl; [done|].
  by rewrite <-app_assoc.
Qed.

Lemma io_loop_run net_at (iterations : list nat) (results : list Z) t :
  io_loop net_at iterations results t
  = (Ret (results ++ (status_at net_at <$> iterations)),
     t ++ (iterations ≫= λ i, events (net_at i))).
Proof.
  revert results t. induction iterations as [|i its IH]; intros results t.
  - simpl. unfold mret, M_ret. by rewrite !app_nil_r.
  - cbn [io_loop]. unfold mbind, M_bind at 1.
    rewrite io_intensive_task_run, IH. csimpl.
    by rewrite <-!app_assoc.
Qed.

Lemma filter_all {X} (P : X → Prop) `{∀ x, Decision (P x)} (l : list X) :
  (∀ x, x ∈ l → P x) → filter P l = l.
Proof.
  induction l as [|x l IH]; intros Hall; [done|].
  rewrite filter_cons_True by (apply Hall; left).
  f_equal. apply IH. intros y Hy. apply Hall. by right.
Qed.

Lemma slept_app t1 t2 : slept (t1 ++ t2) = slept t1 + slept t2.
Proof.
  induction t1 as [|[u timeout|seconds] t1 IH]; simpl; [done| |];
    fold (slept (t1 ++ t2)) (slept t1); lia.
Qed.

Lemma requests_app t1 t2 : requests (t1 ++ t2) = requests t1 ++ requests t2.
Proof. apply omap_app. Qed.

Lemma requests_of_calls net_at (iterations : list nat) :
  requests (iterations ≫= λ i, events (net_at i))
  = replicate (length iterations) (url, 3).
Proof.
  induction iterations as [|i its IH]; [done|]. csimpl.
  destruct (raises (net_at i url 3)); simpl; by rewrite <-IH.
Qed.

Lemma slept_of_calls net_at (iterations : list nat) :
  slept (iterations ≫= λ i, events (net_at i))
  = Z.of_nat (length (filter (λ i, raises (net_at i url 3)) iterations)).
Proof.
  induction iterations as [|i its IH]; [done|]. csimpl.
  destruct (raises (net_at i url 3)) eqn:Hi.
  - rewrite filter_cons_True by (rewrite Hi; exact I). simpl.
    fold (slept (its ≫= λ i, events (net_at i))). rewrite IH. lia.
  - rewrite filter_cons_False by (rewrite Hi; intros []). simpl.
    fold (slept (its ≫= λ i, events (net_at i))). by rewrite IH.
Qed.
End io_more.

(** X7: the sequential I/O loop never raises. It returns one status per
    iteration, in order: the status of the response, or 200 where the
    request raised. It sends exactly one request per iteration, to the
    fixed address with a timeout of 3, and sleeps one second for each
    request that raised. *)
Theorem io_single_thread_results (count : nat) (net_at : nat → Io.network)
    (t : Io.trace) :
  ∃ t',
    Script.io_single_thread count net_at t
    = (Io.Ret (Script.status_at net_at <$> seq 0 count), t')
    ∧ Script.requests t'
      = Script.requests t ++ replicate count (Script.url, 3)
    ∧ Script.slept t'
      = Script.slept t + Z.of_nat (length (Script.failures count net_at)).
Proof.
  unfold Script.io_single_thread. rewrite io_loop_run.
  eexists. split_and!; [done| |].
  - by rewrite requests_app, requests_of_calls, length_seq.
  - by rewrite slept_app, slept_of_calls.
Qed.

(** X8: with the network down at every call, the sequential I/O loop of
    [count] iterations returns [count] times 200 and sleeps [count]
    seconds in all: three for the script. *)
Theorem io_single_thread_network_down (count : nat)
    (net_at : nat → Io.network) (t : Io.trace) :
  (∀ i, (i < count)%nat → Script.raises (net_at i Script.url 3) = true) →
  ∃ t',
    Script.io_single_thread count net_at t
    = (Io.Ret (replicate count 200), t')
    ∧ Script.slept t' = Script.slept t + Z.of_nat count.
Proof.
  intros Hdown. unfold Script.io_single_thread. rewrite io_loop_run.
  eexists. split.
  - do 2 f_equal. simpl.
    assert (∀ k n, (k + n ≤ count)%nat →
              Script.status_at net_at <$> seq k n = replicate n 200) as Hall.
    { intros k n. revert k. induction n as [|n IH]; intros k Hk; [done|].
      simpl. rewrite IH by lia. f_equal.
      unfold Script.status_at.
      specialize (Hdown k ltac:(lia)). by destruct (net_at k Script.url 3). }
    apply Hall. lia.
  - rewrite slept_app, slept_of_calls. do 2 f_equal.
    rewrite filter_all; [apply length_seq|].
    intros i Hi%elem_of_seq. rewrite Hdown by lia. exact I.
Qed.

Lemma io_single_thread_network_down_witness :
  ∃ t',
    Script.io_single_thread 3 (λ _ _ _, Io.Raise Io.Timeout) []
    = (Io.Ret [200; 200; 200], t')
    ∧ Script.slept t' = 3.
Proof.
  apply (io_single_thread_network_down 3 (λ _ _ _, Io.Raise Io.Timeout) []).
  intros i Hi. reflexivity.
Defined.

(** X9: with at least one worker thread and under every scheduler, the
    futures of the I/O pool block hold no exception, and the results read
    from them are the statuses the sequential loop returns when the
    network does the same at each call. *)
Theorem io_multi_thread_results (count worker_count : nat)
    (net_at : nat → Io.network) (sched : nat → nat) (t : Io.trace) :
  (1 ≤ worker_count)%nat →
  Script.io_multi_thread count worker_count net_at sched
    = inr (Io.Ret <$> (Script.status_at net_at <$> seq 0 count))
  ∧ (Script.io_single_thread count net_at t).1
    = Io.Ret (Script.status_at net_at <$> seq 0 count).
Proof.
  intros Hw. split.
  - unfold Script.io_multi_thread. rewrite run_concurrent_fmap by done.
    f_equal. rewrite <-list_fmap_compose. apply list_fmap_ext.
    intros _ i _. simpl. by rewrite io_intensive_task_run.
  - unfold Script.io_single_thread. by rewrite io_loop_run.
Qed.

Lemma io_multi_thread_results_witness :
  Script.io_multi_thread 3 3
    (λ i _ _, if decide (i = 1%nat) then Io.Ret (Io.Build_response 503)
              else Io.Raise Io.ConnectionError)
    (λ n, (2 * n + 1)%nat)
  = inr [Io.Ret 200; Io.Ret 503; Io.Ret 200].
Proof.
  etrans; [apply (io_multi_thread_results 3 3 _ _ []); lia|reflexivity].
Defined.

(** ** More on the workers and the shared list *)

Section worker_more.
Import SharedLog.
Context (worker_count steps : nat).
Implicit Types (st : state) (p : pc) (tid : nat).

Local Abbreviation msuccs := (succs worker_count steps).
Local Abbreviation mstep := (Sched.step msuccs).
Local Abbreviation mreachable := (Sched.reachable msuccs init).

Lemma completed_all_finished st tid p :
  threads_inv worker_count steps st → completed worker_count st →
  threads st !! tid = Some p → p = Finished.
Proof.
  intros [_ Hjoin _] [Hlen Hjoined] Hl.
  rewrite Hjoin in Hl; [congruence|].
  apply lookup_lt_Some in Hl. lia.
Qed.

(** The pairs behind the shared list are distinct and are pairs of the
    run. *)
Lemma log_tags st :
  mreachable st →
  ∃ tags : list (nat * nat),
    shared_data st = tag_entry <$> tags ∧ NoDup tags
    ∧ (∀ tid i, (tid, i) ∈ tags ↔ (i < done_steps steps st tid)%nat)
    ∧ tags ⊆+ all_tags worker_count steps.
Proof.
  intros Hreach.
  pose proof (threads_inv_reachable _ _ _ Hreach) as Hinv.
  destruct (log_inv_reachable _ _ _ Hreach) as (tags & Hlog & Htags).
  assert (NoDup tags) as Hnd.
  { apply nodup_by_thread. intros tid. rewrite Htags.
    apply NoDup_fmap_2_strong; [|apply NoDup_seq]. by intros i j _ _ [= ->]. }
  exists tags. split_and!; [done..| |].
  - intros tid i. by apply tags_elem_of.
  - apply NoDup_submseteq; [done|]. intros [tid i] Hin.
    apply (tags_elem_of steps st) in Hin; [|done].
    apply all_tags_elem_of.
    pose proof (done_steps_le worker_count steps st tid Hinv).
    assert (tid < length (threads st))%nat
      by (apply (done_steps_started steps); lia).
    destruct Hinv as [Hlen _ _]. lia.
Qed.

Lemma step_appends st st' :
  mstep st st' → shared_data st `prefix_of` shared_data st'.
Proof.
  rewrite workers_step_cases. intros [Hs| [Hs| (tid & Hs)]].
  - unfold spawn in Hs. case_decide; by simplify_eq/=.
  - unfold join in Hs. case_decide; [|done].
    destruct (threads st !! joined st) as [[]|]; by simplify_eq/=.
  - apply worker_cases in Hs as (p & p' & _ & _ & _ & Hmove).
    destruct Hmove as [(i & _ & _ & _ & _ & ->)|
      [(i & _ & _ & _ & ->)| [(i & _ & _ & _ & ->)|
      (i & _ & _ & _ & ->)]]]; try done.
    by apply prefix_app_r.
Qed.
End worker_more.

(** X10: when every worker has been joined, the lock is free and no
    thread is inside the critical section. *)
Theorem lock_free_at_completion (worker_count steps_per_worker : nat)
    (st : SharedLog.state) :
  Sched.reachable (SharedLog.succs worker_count steps_per_worker)
    SharedLog.init st →
  SharedLog.completed worker_count st →
  SharedLog.lock st = false ∧ ∀ tid, ¬ SharedLog.holds_lock st tid.
Proof.
  intros Hreach Hdone.
  pose proof (threads_inv_reachable _ _ _ Hreach) as Hinv.
  destruct (lock_inv_reachable _ _ _ Hreach) as (holder & Hlock & Hholder).
  assert (∀ tid, ¬ SharedLog.holds_lock st tid) as Hnone.
  { intros tid (p & Hl & Hcs).
    by rewrite (completed_all_finished _ _ _ _ _ Hinv Hdone Hl) in Hcs. }
  split; [|done]. rewrite Hlock. destruct holder as [tid|]; [|done].
  destruct (Hnone tid). by apply Hholder.
Qed.

Lemma lock_free_at_completion_witness :
  SharedLog.lock
    (Sched.run (SharedLog.succs 3 5) (λ n, (7 * n + 3)%nat) 66 0
       SharedLog.init) = false.
Proof.
  apply (lock_free_at_completion 3 5).
  - apply run_reachable.
  - vm_compute. done.
Defined.

(** X11: the workers terminate and never deadlock: an execution of
    [worker_count] workers of [steps_per_worker] steps has at most
    [worker_count * (4 * steps_per_worker + 2)] actions, and in every
    state it can reach either every worker is joined or some thread can
    act. *)
Theorem workers_terminate_without_deadlock
    (worker_count steps_per_worker : nat) (st : SharedLog.state) (n : nat) :
  nsteps (Sched.step (SharedLog.succs worker_count steps_per_worker)) n
    SharedLog.init st →
  (n ≤ worker_count * (4 * steps_per_worker + 2))%nat
  ∧ (SharedLog.completed worker_count st
     ∨ ∃ st', Sched.step (SharedLog.succs worker_count steps_per_worker)
                st st').
Proof.
  intros Hsteps. split.
  - apply (nsteps_bounded _ (SharedLog.remaining worker_count steps_per_worker)
             (workers_step_remaining worker_count steps_per_worker))
      in Hsteps.
    unfold SharedLog.remaining in Hsteps at 2. simpl in Hsteps. lia.
  - destruct (SharedLog.succs worker_count steps_per_worker st)
      as [|st' sts] eqn:Hs.
    + left. apply (workers_progress _ steps_per_worker); [|done].
      by eapply rtc_nsteps_2.
    + right. exists st'. unfold Sched.step. rewrite Hs. left.
Qed.

Lemma workers_terminate_without_deadlock_witness :
  (2 ≤ 3 * (4 * 5 + 2))%nat.
Proof.
  pose (st1 := SharedLog.State [SharedLog.AtAcquire 0] 0 [] false).
  pose (st2 := SharedLog.State [SharedLog.AtAppend 0] 0 [] true).
  apply (workers_terminate_without_deadlock 3 5 st2 2).
  apply (nsteps_l _ _ _ st1); [vm_compute; left|].
  apply (nsteps_l _ _ _ st2); [vm_compute; right; left|].
  apply nsteps_O.
Defined.

(** X12: with a single worker the shared list is determined: at every
    moment it is the worker's first steps in order, and after the run all
    of them. *)
Theorem single_worker_log (steps_per_worker : nat) (st : SharedLog.state) :
  Sched.reachable (SharedLog.succs 1 steps_per_worker) SharedLog.init st →
  (∃ k, (k ≤ steps_per_worker)%nat
        ∧ SharedLog.shared_data st = SharedLog.entry 0 <$> seq 0 k)
  ∧ (SharedLog.completed 1 st →
     SharedLog.shared_data st = SharedLog.entry 0 <$> seq 0 steps_per_worker).
Proof.
  intros Hreach.
  pose proof (threads_inv_reachable _ _ _ Hreach) as Hinv.
  destruct (log_inv_reachable _ _ _ Hreach) as (tags & Hlog & Htags).
  assert (SharedLog.shared_data st
          = SharedLog.entry 0
              <$> seq 0 (SharedLog.done_steps steps_per_worker st 0)) as Hdata.
  { rewrite Hlog, <-(filter_all (λ t, t.1 = 0%nat) tags).
    - rewrite Htags. by rewrite <-list_fmap_compose.
    - intros [tid i] Hin. simpl.
      apply (tags_elem_of steps_per_worker st) in Hin; [|done].
      assert (tid < length (SharedLog.threads st))%nat
        by (apply (done_steps_started steps_per_worker); lia).
      destruct Hinv as [Hlen _ _]. lia. }
  split.
  - eexists. split; [|done]. by apply (done_steps_le 1).
  - intros Hdone. rewrite Hdata.
    by rewrite (completed_done_steps 1 steps_per_worker st 0 Hinv Hdone).
Qed.

Lemma single_worker_log_witness :
  SharedLog.run_workers 1 4 (λ n, (5 * n + 2)%nat)
  = SharedLog.entry 0 <$> seq 0 4.
Proof.
  apply (single_worker_log 4
           (Sched.run (SharedLog.succs 1 4) (λ n, (5 * n + 2)%nat) 18 0
              SharedLog.init)).
  - apply run_reachable.
  - vm_compute. done.
Defined.

(** X13: the shared list only grows at its end: whatever the threads do
    from a state on, the list of that state stays a prefix of the list;
    no entry is removed, replaced or moved. *)
Theorem shared_list_append_only (worker_count steps_per_worker : nat)
    (st st' : SharedLog.state) :
  rtc (Sched.step (SharedLog.succs worker_count steps_per_worker)) st st' →
  SharedLog.shared_data st `prefix_of` SharedLog.shared_data st'.
Proof.
  induction 1 as [|st st1 st' Hstep _ IH]; [done|].
  etrans; [|apply IH]. by eapply step_appends.
Qed.

Lemma shared_list_append_only_witness :
  ["线程0-任务0"%string]
  `prefix_of` SharedLog.run_workers 3 5 (λ n, n).
Proof.
  pose (st := SharedLog.State
                [SharedLog.AtRelease 0; SharedLog.AtAcquire 0] 0
                ["线程0-任务0"%string] true).
  apply (shared_list_append_only 3 5 st
           (Sched.run (SharedLog.succs 3 5) (λ n, n) 66 0 SharedLog.init)).
  change (Sched.run (SharedLog.succs 3 5) (λ n, n) 66 0 SharedLog.init)
    with (Sched.run (SharedLog.succs 3 5) (λ n, n) 62 4 st).
  apply run_reachable.
Defined.

(** X14: at every moment of a run the shared list has no duplicate entry
    and at most [worker_count * steps_per_worker] entries. *)
Theorem shared_list_never_duplicates (worker_count steps_per_worker : nat)
    (st : SharedLog.state) :
  Sched.reachable (SharedLog.succs worker_count steps_per_worker)
    SharedLog.init st →
  NoDup (SharedLog.shared_data st)
  ∧ (length (SharedLog.shared_data st)
     ≤ worker_count * steps_per_worker)%nat.
Proof.
  intros Hreach.
  destruct (log_tags _ _ _ Hreach) as (tags & -> & Hnd & _ & Hsub).
  split.
  - by apply (NoDup_fmap_2 _).
  - rewrite length_fmap, <-all_tags_length. by apply submseteq_length.
Qed.

Lemma shared_list_never_duplicates_witness :
  NoDup (SharedLog.shared_data
           (Sched.run (SharedLog.succs 3 5) (λ n, (7 * n + 3)%nat) 30 0
              SharedLog.init)).
Proof.
  apply (shared_list_never_duplicates 3 5). apply run_reachable.
Defined.

(** X15: an entry identifies its worker and its step: different
    (worker, step) pairs give different entries, also where the digits
    of the two numbers could run together. *)
Theorem entry_identifies_worker_and_step (a i b j : nat) :
  (a, i) ≠ (b, j) → SharedLog.entry a i ≠ SharedLog.entry b j.
Proof.
  intros Hne Heq. apply Hne. by apply entry_inj in Heq as [-> ->].
Qed.

Lemma entry_identifies_worker_and_step_witness :
  SharedLog.entry 1 10 ≠ SharedLog.entry 11 0.
Proof.
  apply entry_identifies_worker_and_step. intros Heq. discriminate Heq.
Defined.

(** X16: under every scheduler, the report printed after the run gives
    the count [worker_count * steps_per_worker] on its first line, then
    the heading, then one line per entry, indented by two spaces, each
    entry of each worker once; for the script the first line reads
    ["共处理了 15 个任务"] and 17 lines are printed. *)
Theorem report_after_run (worker_count steps_per_worker : nat)
    (sched : nat → nat) :
  let log := SharedLog.run_workers worker_count steps_per_worker sched in
  Script.report log !! 0%nat
    = Some ("共处理了 " +:+ pretty (worker_count * steps_per_worker)%nat
            +:+ " 个任务")
  ∧ Script.report log !! 1%nat = Some "任务执行顺序（注意线程交替）:"%string
  ∧ drop 2 (Script.report log)
    ≡ₚ String.append "  "
         <$> SharedLog.all_entries worker_count steps_per_worker
  ∧ drop 2 (Script.report log) = String.append "  " <$> log
  ∧ Script.report (SharedLog.run_workers 3 5 sched) !! 0%nat
    = Some "共处理了 15 个任务"%string
  ∧ length (Script.report (SharedLog.run_workers 3 5 sched)) = 17%nat.
Proof.
  intros log.
  assert (∀ w s, SharedLog.run_workers w s sched ≡ₚ SharedLog.all_entries w s)
    as Hperm.
  { intros w s. apply completed_log_permutation; [apply run_reachable|].
    apply run_workers_completed. }
  assert (∀ w s, length (SharedLog.run_workers w s sched) = (w * s)%nat)
    as Hlen.
  { intros w s. rewrite Hperm. unfold SharedLog.all_entries.
    by rewrite length_fmap, all_tags_length. }
  unfold Script.report. split_and!.
  - simpl. unfold log. by rewrite Hlen.
  - done.
  - simpl. unfold log. by rewrite Hperm.
  - done.
  - simpl. by rewrite Hlen.
  - simpl. by rewrite length_fmap, Hlen.
Qed.
